(** * pykeops/common/utils.py: build-folder locking, shape broadcasting,
      backend dispatch.

    A shallow embedding of the helper functions of [pykeops.common.utils]
    and the properties of the build cache, the broadcast shape checker and
    the backend dispatcher. *)

From Stdlib Require Import Ascii.
From stdpp Require Import base decidable option list strings pretty gmap.

Local Open Scope Z_scope.


(** ** Python values shared by all functions *)

(** A raised exception: its class and the message it was built with. *)
Record exception := PyExc { exc_class : string; exc_msg : string }.

Global Instance exception_eq_dec : EqDecision exception.
Proof. solve_decision. Defined.

Definition ValueError (msg : string) : exception := PyExc "ValueError" msg.
Definition FileNotFoundError (msg : string) : exception :=
  PyExc "FileNotFoundError" msg.
Definition UnboundLocalError (msg : string) : exception :=
  PyExc "UnboundLocalError" msg.

(** What a call of a pure function produces: a returned value or a raised
    exception. *)
Inductive result (A : Type) : Type :=
  | Ok (a : A)
  | Raise (e : exception).
Arguments Ok {A} a.
Arguments Raise {A} e.

Definition result_bind {A B} (r : result A) (k : A -> result B) : result B :=
  match r with
  | Ok a => k a
  | Raise e => Raise e
  end.

Definition is_ok {A} (r : result A) : bool :=
  match r with Ok _ => true | Raise _ => false end.

Definition raises {A} (r : result A) : Prop := exists e, r = Raise e.

(** ** axis2cat, cat2axis *)

Definition axis2cat (axis : Z) : result Z :=
  if decide (axis ∈ [0; 1]) then Ok ((axis + 1) `mod` 2)
  else Raise (ValueError "Axis should be 0 or 1.").

Definition cat2axis (cat : Z) : result Z :=
  if decide (cat ∈ [0; 1]) then Ok ((cat + 1) `mod` 2)
  else Raise (ValueError "Category should be Vi or Vj.").

(** ** Shapes: max_tuple, check_broadcasting *)

(** A shape is a Python tuple of integers, a [list Z]; an absent shape
    ([None]) is an [option]. *)

(** [len(t)] as a Python integer. *)
Definition len {A} (t : list A) : Z := Z.of_nat (length t).

(** [t * n] for a tuple [t]: the empty tuple when [n <= 0]. *)
Fixpoint tuple_mul_nat {A} (t : list A) (n : nat) : list A :=
  match n with
  | O => []
  | S n' => t ++ tuple_mul_nat t n'
  end.

Definition tuple_mul {A} (t : list A) (n : Z) : list A :=
  tuple_mul_nat t (Z.to_nat n).

(** [repr] of a tuple of integers, as [str.format] renders it for [{}]. *)
Fixpoint repr_items (t : list Z) : string :=
  match t with
  | [] => ""
  | [x] => pretty x
  | x :: rest => pretty x +:+ ", " +:+ repr_items rest
  end.

Definition repr_tuple (t : list Z) : string :=
  match t with
  | [] => "()"
  | [x] => "(" +:+ pretty x +:+ ",)"
  | _ => "(" +:+ repr_items t +:+ ")"
  end.

Definition max_tuple (a b : list Z) : list Z :=
  (fun '(a_i, b_i) => Z.max a_i b_i) <$> zip a b.

Definition incompatible_msg (dims_1 dims_2 : list Z) : string :=
  "Incompatible batch dimensions: " +:+ repr_tuple dims_1 +:+ " and "
  +:+ repr_tuple dims_2 +:+ ".".

(** The [for] loop of [check_broadcasting] over the zipped padded shapes;
    it raises at the first offending pair. *)
Fixpoint check_pairs (dims_1 dims_2 : list Z) (pairs : list (Z * Z))
  : result unit :=
  match pairs with
  | [] => Ok tt
  | (dim_1, dim_2) :: rest =>
      if decide (dim_1 ≠ 1 ∧ dim_2 ≠ 1 ∧ dim_1 ≠ dim_2)
      then Raise (ValueError (incompatible_msg dims_1 dims_2))
      else check_pairs dims_1 dims_2 rest
  end.

Definition padded_dims_1 (dims_1 dims_2 : list Z) : list Z :=
  tuple_mul [1] (len dims_2 - len dims_1) ++ dims_1.

Definition padded_dims_2 (dims_1 dims_2 : list Z) : list Z :=
  tuple_mul [1] (len dims_1 - len dims_2) ++ dims_2.

Definition check_broadcasting (dims_1 dims_2 : option (list Z))
  : result (option (list Z)) :=
  match dims_1 with
  | None => Ok dims_2
  | Some d1 =>
      match dims_2 with
      | None => Ok (Some d1)
      | Some d2 =>
          let p1 := padded_dims_1 d1 d2 in
          let p2 := padded_dims_2 d1 d2 in
          result_bind (check_pairs d1 d2 (zip p1 p2))
            (fun _ => Ok (Some (max_tuple p1 p2)))
      end
  end.

(** The words of the specification, to compare the code with: left-padding
    with 1s up to a given length, and compatibility of an aligned pair. *)
Definition left_pad (n : nat) (dims : list Z) : list Z :=
  replicate (n - length dims)%nat 1 ++ dims.

Definition compatible (d1 d2 : Z) : Prop := d1 = d2 \/ d1 = 1 \/ d2 = 1.

Global Instance compatible_dec d1 d2 : Decision (compatible d1 d2).
Proof. unfold compatible. apply _. Defined.

(** ** Reading a shape back from the error message *)

(** Every character of [s] satisfies [P]. *)
Fixpoint all_chars (P : ascii -> bool) (s : string) : bool :=
  match s with
  | EmptyString => true
  | String c r => P c && all_chars P r
  end.

(** The characters of a printed integer. *)
Definition int_char (c : ascii) : bool :=
  bool_decide (c ∈ ["0"; "1"; "2"; "3"; "4"; "5"; "6"; "7"; "8"; "9"; "-"]%char).

(** The characters of a printed tuple before its closing parenthesis. *)
Definition tuple_char (c : ascii) : bool :=
  int_char c || bool_decide (c ∈ ["("; ","; " "]%char).

(** ** The operating system as the build cache uses it *)

(** A path built by [os.path.join(directory, name)]: kept as the pair it was
    joined from. *)
Definition path : Type := string * string.
Definition os_path_join (dir name : string) : path := (dir, name).

(** What a compilation action can change: the directories (each directory
    path mapped to its files, a file name mapped to the inode of the
    file; a sub-directory is a directory of its own, under the path of its
    parent followed by "/" and its name), the inode allocator, and the
    modules that [importlib.util.find_spec] resolves. *)
Record Disk := mkDisk {
  d_dirs : gmap string (gmap string nat);
  d_next_ino : nat;
  d_modules : gset string
}.

(** Directories are named by their paths as the program writes them, the
    components separated by "/". [strip_prefix p s] is what follows [p] in
    [s], when [s] starts with [p]. *)
Fixpoint strip_prefix (p s : string) : option string :=
  match p, s with
  | EmptyString, _ => Some s
  | String a p', String b s' =>
      if decide (a = b) then strip_prefix p' s' else None
  | String _ _, EmptyString => None
  end.

(** The directory [k] lies in the tree of [bf]: it is [bf], or its path
    goes on after [bf] and a separator. *)
Definition in_tree (bf k : string) : bool :=
  bool_decide (k = bf) || bool_decide (is_Some (strip_prefix (bf +:+ "/") k)).

(** The first component of a relative path. *)
Fixpoint first_component (s : string) : string :=
  match s with
  | EmptyString => EmptyString
  | String c r =>
      if decide (c = "/"%char) then EmptyString
      else String c (first_component r)
  end.

(** The name under which the directory [k] shows in [dir]: that of the
    sub-directory of [dir] that is [k] or holds it. *)
Definition child_name (dir k : string) : option string :=
  match strip_prefix (dir +:+ "/") k with
  | Some rest =>
      let n := first_component rest in
      if decide (n = EmptyString) then None else Some n
  | None => None
  end.

(** The names of the sub-directories of [dir]. *)
Definition subdirs (dir : string) (d : Disk) : gset string :=
  set_omap (child_name dir) (dom (d_dirs d)).

(** A Python file object: its open file description and the inode it
    refers to. *)
Record file := mkFile { f_fd : nat; f_ino : nat }.

Global Instance file_eq_dec : EqDecision file.
Proof. solve_decision. Defined.

(** [fcntl.LOCK_EX] and [fcntl.LOCK_UN], the two operations the module
    passes to [fcntl.flock]. *)
Inductive flock_op := LOCK_EX | LOCK_UN.

Global Instance flock_op_eq_dec : EqDecision flock_op.
Proof. solve_decision. Defined.

(** The calls that reach the operating system or the compilation action,
    in the order they are made. *)
Inductive event :=
  | EMakedirs (bf : string)
  | EOpen (p : path)
  | EFlock (f : file) (op : flock_op)
  | ECall (dll : string)
  | EClose (f : file)
  | EFindSpec (dllname : string)
  | ERmtree (bf : string).

Global Instance event_eq_dec : EqDecision event.
Proof. solve_decision. Defined.

(** The whole state: the disk, the table of exclusive [flock] locks (inode
    mapped to the open file description that holds the lock), the
    descriptor allocator, [pykeops.config.build_type], and the log of calls
    made so far. *)
Record World := mkWorld {
  w_disk : Disk;
  w_locks : gmap nat nat;
  w_next_fd : nat;
  w_build_type : string;
  w_trace : list event
}.

Definition set_disk (d : Disk) (w : World) : World :=
  mkWorld d (w_locks w) (w_next_fd w) (w_build_type w) (w_trace w).
Definition set_locks (l : gmap nat nat) (w : World) : World :=
  mkWorld (w_disk w) l (w_next_fd w) (w_build_type w) (w_trace w).
Definition set_next_fd (n : nat) (w : World) : World :=
  mkWorld (w_disk w) (w_locks w) n (w_build_type w) (w_trace w).
Definition add_event (e : event) (w : World) : World :=
  mkWorld (w_disk w) (w_locks w) (w_next_fd w) (w_build_type w)
          (w_trace w ++ [e]).

(** A computation on the world: it returns or raises in a new world, or
    never returns ([None]: it waits for a lock for ever). *)
Definition M (A : Type) : Type := World -> option (result A * World).

Definition ret {A} (a : A) : M A := fun w => Some (Ok a, w).

Definition bind {A B} (m : M A) (k : A -> M B) : M B := fun w =>
  match m w with
  | None => None
  | Some (Ok a, w') => k a w'
  | Some (Raise e, w') => Some (Raise e, w')
  end.

Notation "'let*' x := m 'in' k" := (bind m (fun x => k))
  (at level 10, x name, m at level 100, k at level 200).
Notation "m >> k" := (bind m (fun _ => k))
  (at level 100, k at level 200, right associativity).

Definition get_build_type : M string := fun w => Some (Ok (w_build_type w), w).

(** [a and b] on booleans: [b] is evaluated only when [a] is true. *)
Definition and_ (a b : M bool) : M bool :=
  let* x := a in if x then b else ret false.

(** [try: body finally: fin]. The exception of [fin], if any, replaces the
    outcome of [body]. *)
Definition try_finally {A} (body : M A) (fin : M unit) : M A := fun w =>
  match body w with
  | None => None
  | Some (r, w1) =>
      match fin w1 with
      | None => None
      | Some (Ok _, w2) => Some (r, w2)
      | Some (Raise e, w2) => Some (Raise e, w2)
      end
  end.

Definition no_such_file (p : string) : exception :=
  FileNotFoundError ("[Errno 2] No such file or directory: '" +:+ p +:+ "'").

(** [os.makedirs(bf, exist_ok=True)]. *)
Definition os_makedirs (bf : string) : M unit := fun w =>
  let d := w_disk w in
  let d' := match d_dirs d !! bf with
            | Some _ => d
            | None => mkDisk (<[bf := ∅]> (d_dirs d)) (d_next_ino d) (d_modules d)
            end in
  Some (Ok tt, add_event (EMakedirs bf) (set_disk d' w)).

(** [open(p, 'w')]: the file is created when the directory has no such
    entry, reused (and truncated) when it has; a missing directory raises
    [FileNotFoundError]. *)
Definition open_w (p : path) : M file := fun w =>
  let d := w_disk w in
  let w0 := add_event (EOpen p) w in
  match d_dirs d !! p.1 with
  | None => Some (Raise (no_such_file (p.1 +:+ "/" +:+ p.2)), w0)
  | Some entries =>
      let '(ino, d') :=
        match entries !! p.2 with
        | Some i => (i, d)
        | None => (d_next_ino d,
                   mkDisk (<[p.1 := <[p.2 := d_next_ino d]> entries]> (d_dirs d))
                          (S (d_next_ino d)) (d_modules d))
        end in
      Some (Ok (mkFile (w_next_fd w) ino),
            set_next_fd (S (w_next_fd w)) (set_disk d' w0))
  end.

(** What [flock(f, LOCK_UN)] and [f.close()] do to the table of locks:
    the lock of the inode goes when this description holds it. *)
Definition drop_lock (f : file) (locks : gmap nat nat) : gmap nat nat :=
  if decide (locks !! f_ino f = Some (f_fd f))
  then delete (f_ino f) locks else locks.

(** [fcntl.flock(f, op)]. [LOCK_EX] returns once no other open file
    description holds the lock of the inode; [LOCK_UN] drops the lock this
    description holds. *)
Definition flock (f : file) (op : flock_op) : M unit := fun w =>
  match op with
  | LOCK_EX =>
      match w_locks w !! f_ino f with
      | None =>
          Some (Ok tt, add_event (EFlock f op)
                         (set_locks (<[f_ino f := f_fd f]> (w_locks w)) w))
      | Some holder =>
          if decide (holder = f_fd f)
          then Some (Ok tt, add_event (EFlock f op) w)
          else None
      end
  | LOCK_UN =>
      Some (Ok tt, add_event (EFlock f op)
                     (set_locks (drop_lock f (w_locks w)) w))
  end.

(** [f.close()]: closing the description also drops a lock it still holds. *)
Definition file_close (f : file) : M unit := fun w =>
  Some (Ok tt, add_event (EClose f) (set_locks (drop_lock f (w_locks w)) w)).

(** [shutil.rmtree(bf)], with [ignore_errors] left at its default: the
    directory goes with everything in it, its sub-directories and their
    files included. *)
Definition shutil_rmtree (bf : string) : M unit := fun w =>
  let d := w_disk w in
  let w0 := add_event (ERmtree bf) w in
  match d_dirs d !! bf with
  | None => Some (Raise (no_such_file bf), w0)
  | Some _ =>
      Some (Ok tt,
            set_disk (mkDisk (filter (fun kv => in_tree bf kv.1 = false)
                                     (d_dirs d))
                             (d_next_ino d) (d_modules d)) w0)
  end.

(** ** module_exists *)

Definition module_exists (dllname : string) : M bool := fun w =>
  Some (Ok (bool_decide (dllname ∈ d_modules (w_disk w))),
        add_event (EFindSpec dllname) w).

(** ** Context managers: the [with] statement, files, FileLock *)

(** The context-manager protocol. Both managers of this module return
    [None] from [__exit__], so an exception of the body is never
    suppressed and [__exit__] is modelled without a return value. *)
Class ContextManager (Mgr X : Type) := {
  cm_enter : Mgr -> M X;
  cm_exit : Mgr -> M unit
}.

(** [with mgr_expr as x: body x]. *)
Definition with_ {Mgr X A} `{ContextManager Mgr X}
    (mgr_expr : M Mgr) (body : X -> M A) : M A :=
  let* mgr := mgr_expr in
  let* x := cm_enter mgr in
  try_finally (body x) (cm_exit mgr).

Global Instance file_cm : ContextManager file file := {
  cm_enter := ret;
  cm_exit := file_close
}.

Record FileLock := mkFileLock { fd : file; op : flock_op }.

(** [FileLock(fd, op)]; the wrapper leaves [op] at its default,
    [fcntl.LOCK_EX]. *)
Definition FileLock_init (fd : file) (op : flock_op) : M FileLock :=
  ret (mkFileLock fd op).

Definition FileLock_enter (self : FileLock) : M FileLock :=
  flock (fd self) (op self) >> ret self.

Definition FileLock_exit (self : FileLock) : M unit :=
  flock (fd self) LOCK_UN.

Global Instance FileLock_cm : ContextManager FileLock FileLock := {
  cm_enter := FileLock_enter;
  cm_exit := FileLock_exit
}.

(** ** create_and_lock_build_folder *)

(** [args[0]] of the decorated method: the object that carries the build
    folder and the name of the compiled module. *)
Record Target := mkTarget { build_folder : string; dll_name : string }.

(** The decorated function: it works on the disk (it writes the build
    folder, it makes a module importable), and it returns, raises, or
    never returns. *)
Definition Action (R : Type) : Type :=
  Target -> Disk -> option (result R * Disk).

(** The call of the decorated function with the arguments of the wrapper. *)
Definition call {R} (func : Action R) (self : Target) : M R := fun w =>
  let w0 := add_event (ECall (dll_name self)) w in
  match func self (w_disk w) with
  | None => None
  | Some (r, d') => Some (r, set_disk d' w0)
  end.

Definition lock_name : string := "pykeops_build2.lock".

Definition wrapper_filelock {R} (func : Action R) (self : Target) : M R :=
  (* get build folder name *)
  let bf := build_folder self in
  (* create build folder *)
  os_makedirs bf >>
  (* create a file lock to prevent multiple compilations at the same time *)
  let* func_res :=
    with_ (open_w (os_path_join bf lock_name)) (fun f =>
      with_ (FileLock_init f LOCK_EX) (fun _ : FileLock =>
        call func self)) in
  (* clean *)
  let* clean :=
    and_ (module_exists (dll_name self))
         (let* build_type := get_build_type in
          ret (bool_decide (build_type = "Release"))) in
  (if clean then shutil_rmtree bf else ret tt) >>
  ret func_res.

Definition create_and_lock_build_folder {R} (func : Action R) : Target -> M R :=
  wrapper_filelock func.

(** The wrapper up to the moment [flock] returns: the build folder is
    there, the lock file is open, the lock is held. Used to name the world
    in which the decorated function is called. *)
Definition acquire (self : Target) : M file :=
  let bf := build_folder self in
  os_makedirs bf >>
  let* f := open_w (os_path_join bf lock_name) in
  flock f LOCK_EX >>
  ret f.

(** The world once the decorated function, called in [w1], has left the
    disk [d'] and both [with] blocks have been left. *)
Definition released (self : Target) (f : file) (d' : Disk) (w1 : World) : World :=
  mkWorld d' (delete (f_ino f) (w_locks w1)) (w_next_fd w1) (w_build_type w1)
          (w_trace w1 ++ [ECall (dll_name self); EFlock f LOCK_UN; EClose f]).

(** The inode of the lock file of a build folder, if both exist. *)
Definition lock_file (d : Disk) (bf : string) : option nat :=
  match d_dirs d !! bf with
  | Some entries => entries !! lock_name
  | None => None
  end.

(** The inode [open] returns for the lock file of [bf]: the one of the
    existing file, a new one otherwise. *)
Definition lock_inode (d : Disk) (bf : string) : nat :=
  default (d_next_ino d) (lock_file d bf).

(** The lines under the comment [# clean] of the wrapper. *)
Definition clean (self : Target) : M unit :=
  let* c :=
    and_ (module_exists (dll_name self))
         (let* build_type := get_build_type in
          ret (bool_decide (build_type = "Release"))) in
  if c then shutil_rmtree (build_folder self) else ret tt.

(** The condition under which [clean] calls [shutil.rmtree]. *)
Definition must_clean (self : Target) (w : World) : Prop :=
  dll_name self ∈ d_modules (w_disk w) /\ w_build_type w = "Release".

Global Instance must_clean_dec self w : Decision (must_clean self w).
Proof. unfold must_clean. apply _. Defined.

(** ** get_tools *)

Section Backend.

(** The classes [numpytools] and [torchtools] live in
    [pykeops.numpy.utils] and [pykeops.torch.utils]: the import of the
    class followed by its instantiation is taken as given, a value of
    the class or the exception the import or the constructor raises. *)
Variable Tools : Type.
Variable numpytools : result Tools.
Variable torchtools : result Tools.

(** Reading the local variable [tools]: it is bound only when one of the
    branches assigned it. *)
Definition read_local (name : string) (v : option Tools) : result Tools :=
  match v with
  | Some t => Ok t
  | None =>
      Raise (UnboundLocalError
               ("local variable '" +:+ name +:+ "' referenced before assignment"))
  end.

Definition get_tools (lang : string) : result Tools :=
  result_bind
    (if decide (lang = "numpy")
     then result_bind numpytools (fun t => Ok (Some t))
     else if decide (lang = "torch" \/ lang = "pytorch")
     then result_bind torchtools (fun t => Ok (Some t))
     else Ok None)
    (fun tools => read_local "tools" tools).

End Backend.

Arguments get_tools {Tools} numpytools torchtools lang.

(** ** Concurrent calls of the wrapper *)

(** Where a call of [wrapper_filelock] stands: the next system call it will
    make. A call is preempted only between system calls. *)
Inductive pc (R : Type) : Type :=
  | AtMakedirs
  | AtOpen
  | AtLock (f : file)
  | AtCall (f : file)
  | AtUnlock (f : file) (r : result R)
  | AtClose (f : file) (r : result R)
  | AtClean (func_res : R)
  | AtRmtree (func_res : R)
  | Finished (r : result R).
Arguments AtMakedirs {R}.
Arguments AtOpen {R}.
Arguments AtLock {R} f.
Arguments AtCall {R} f.
Arguments AtUnlock {R} f r.
Arguments AtClose {R} f r.
Arguments AtClean {R} func_res.
Arguments AtRmtree {R} func_res.
Arguments Finished {R} r.

(** Run one system call [m] and move on to [k x]; an exception that no
    [with] block is waiting for ends the call. [None]: the system call
    does not return in this world. *)
Definition advance {R X} (m : M X) (k : X -> pc R) (w : World)
  : option (World * pc R) :=
  match m w with
  | None => None
  | Some (Ok x, w') => Some (w', k x)
  | Some (Raise e, w') => Some (w', Finished (Raise e))
  end.

(** The outcome of a [with] body once its [__exit__] has run. *)
Definition after_exit {R X} (m : M X) (r : result R) (k : result R -> pc R)
    (w : World) : option (World * pc R) :=
  match m w with
  | None => None
  | Some (Ok _, w') => Some (w', k r)
  | Some (Raise e, w') => Some (w', k (Raise e))
  end.

Definition step {R} (func : Action R) (self : Target) (p : pc R) (w : World)
  : option (World * pc R) :=
  let bf := build_folder self in
  match p with
  | AtMakedirs => advance (os_makedirs bf) (fun _ => AtOpen) w
  | AtOpen => advance (open_w (os_path_join bf lock_name)) AtLock w
  | AtLock f =>
      match (let* l := FileLock_init f LOCK_EX in cm_enter l) w with
      | None => None
      | Some (Ok _, w') => Some (w', AtCall f)
      | Some (Raise e, w') => Some (w', AtClose f (Raise e))
      end
  | AtCall f =>
      match call func self w with
      | None => None
      | Some (r, w') => Some (w', AtUnlock f r)
      end
  | AtUnlock f r =>
      after_exit (cm_exit (mkFileLock f LOCK_EX)) r (AtClose f) w
  | AtClose f r =>
      after_exit (cm_exit f) r
        (fun r' => match r' with
                   | Ok func_res => AtClean func_res
                   | Raise e => Finished (Raise e)
                   end) w
  | AtClean func_res =>
      advance (and_ (module_exists (dll_name self))
                    (let* build_type := get_build_type in
                     ret (bool_decide (build_type = "Release"))))
              (fun clean : bool =>
                 if clean then AtRmtree func_res else Finished (Ok func_res)) w
  | AtRmtree func_res =>
      advance (shutil_rmtree bf) (fun _ => Finished (Ok func_res)) w
  | Finished _ => None
  end.

(** One call running alone until it finishes. *)
Fixpoint run_alone {R} (fuel : nat) (func : Action R) (self : Target)
    (p : pc R) (w : World) : option (result R * World) :=
  match p with
  | Finished r => Some (r, w)
  | _ =>
      match fuel with
      | O => None
      | S fuel' =>
          match step func self p w with
          | None => None
          | Some (w', p') => run_alone fuel' func self p' w'
          end
      end
  end.

(** A call in progress: the decorated function, its first argument, and
    where the call stands. *)
Record Call (R : Type) := mkCall {
  c_func : Action R;
  c_self : Target;
  c_pc : pc R
}.
Arguments mkCall {R} c_func c_self c_pc.
Arguments c_func {R} c.
Arguments c_self {R} c.
Arguments c_pc {R} c.

Definition start {R} (func : Action R) (self : Target) : Call R :=
  mkCall func self AtMakedirs.

(** The scheduler lets call number [i] make its next system call. [None]:
    there is no such call, or it cannot move (it has finished, or it waits
    for the lock). *)
Definition sched {R} (i : nat) (sys : World * list (Call R))
  : option (World * list (Call R)) :=
  match sys.2 !! i with
  | None => None
  | Some c =>
      match step (c_func c) (c_self c) (c_pc c) sys.1 with
      | None => None
      | Some (w', p') => Some (w', <[i := mkCall (c_func c) (c_self c) p']> sys.2)
      end
  end.

Fixpoint run {R} (schedule : list nat) (sys : World * list (Call R))
  : option (World * list (Call R)) :=
  match schedule with
  | [] => Some sys
  | i :: rest =>
      match sched i sys with
      | None => None
      | Some sys' => run rest sys'
      end
  end.

(** A call is inside the critical section from the moment its [flock]
    returned until it calls [flock] again to unlock: the decorated function
    is running or has just ended. *)
Definition in_critical {R} (c : Call R) : bool :=
  match c_pc c with
  | AtCall _ | AtUnlock _ _ => true
  | _ => false
  end.

(** The calls numbered [i] and [j] are both inside the critical section of
    the same build folder. *)
Definition overlap {R} (i j : nat) (calls : list (Call R)) : Prop :=
  match calls !! i, calls !! j with
  | Some ci, Some cj =>
      i <> j /\ build_folder (c_self ci) = build_folder (c_self cj) /\
      in_critical ci = true /\ in_critical cj = true
  | _, _ => False
  end.

(** The scheduler can follow [schedule] from [sys], and [P] holds of the
    system it arrives at. *)
Definition after {R} (schedule : list nat) (sys : World * list (Call R))
    (P : World * list (Call R) -> Prop) : Prop :=
  match run schedule sys with
  | Some sys' => P sys'
  | None => False
  end.

(** The file a call has open, and the file whose lock it holds. *)
Definition pc_file {R} (p : pc R) : option file :=
  match p with
  | AtLock f | AtCall f | AtUnlock f _ | AtClose f _ => Some f
  | _ => None
  end.

Definition pc_holds {R} (p : pc R) : option file :=
  match p with
  | AtCall f | AtUnlock f _ => Some f
  | _ => None
  end.

(** A decorated function that leaves the lock files alone: it neither
    removes nor replaces the lock file of any build folder. *)
Definition keeps_lock_files {R} (func : Action R) : Prop :=
  forall self d r d', func self d = Some (r, d') ->
    forall bf, lock_file d' bf = lock_file d bf.

(** What holds of every system the scheduler reaches when no call ever
    deletes a build folder. *)
Record no_cleanup_inv {R} (sys : World * list (Call R)) : Prop := {
  inv_build_type : w_build_type sys.1 <> "Release";
  inv_funcs : forall i c, sys.2 !! i = Some c -> keeps_lock_files (c_func c);
  inv_no_rmtree : forall i c v, sys.2 !! i = Some c -> c_pc c <> AtRmtree v;
  inv_file : forall i c f,
    sys.2 !! i = Some c -> pc_file (c_pc c) = Some f ->
    lock_file (w_disk sys.1) (build_folder (c_self c)) = Some (f_ino f) /\
    (f_fd f < w_next_fd sys.1)%nat;
  inv_held : forall i c f,
    sys.2 !! i = Some c -> pc_holds (c_pc c) = Some f ->
    w_locks sys.1 !! f_ino f = Some (f_fd f);
  inv_distinct : forall i j ci cj fi fj,
    i <> j -> sys.2 !! i = Some ci -> sys.2 !! j = Some cj ->
    pc_file (c_pc ci) = Some fi -> pc_file (c_pc cj) = Some fj ->
    f_fd fi <> f_fd fj
}.

(** ** clean_pykeops *)

(** [s.endswith(suffix)] *)
Fixpoint str_endswith (s suffix : string) : bool :=
  bool_decide (s = suffix) ||
  match s with
  | EmptyString => false
  | String _ r => str_endswith r suffix
  end.

(** [s.count(sub)] for a non-empty [sub]: the occurrences of [sub] found
    from left to right, the search going on after the end of each one
    ([skip] characters of the current occurrence are still to be passed). *)
Fixpoint count_from (sub : string) (skip : nat) (s : string) : nat :=
  match s with
  | EmptyString => O
  | String _ r =>
      match skip with
      | S k => count_from sub k r
      | O =>
          if String.prefix sub s
          then S (count_from sub (String.length sub - 1) r)
          else count_from sub 0 r
      end
  end.

(** [s.count(sub)]; the empty string is counted once between any two
    characters and at both ends. *)
Definition str_count (s sub : string) : nat :=
  if decide (sub = EmptyString) then S (String.length s) else count_from sub 0 s.

(** The string [os.path.join] returns for a directory and a name. *)
Definition path_str (p : path) : string :=
  if String.prefix "/" p.2 then p.2
  else if bool_decide (p.1 = EmptyString) || str_endswith p.1 "/" then p.1 +:+ p.2
  else p.1 +:+ "/" +:+ p.2.

Definition IsADirectoryError (msg : string) : exception :=
  PyExc "IsADirectoryError" msg.

Definition is_a_directory (p : string) : exception :=
  IsADirectoryError ("[Errno 21] Is a directory: '" +:+ p +:+ "'").

(** The names [os.listdir] finds in a directory with the files [entries]:
    those of its sub-directories and those of its files. A name names one
    thing: the sub-directory when there is one. *)
Definition dir_names (dir : string) (d : Disk) (entries : gmap string nat)
  : list string :=
  elements (subdirs dir d)
  ++ filter (fun f => f ∉ subdirs dir d) (map_to_list entries).*1.

(** [os.listdir(path)]: the names in the directory, in the order the
    system gives them, which is any order. *)
Definition os_listdir (dir : string) (d : Disk) : result (list string) :=
  match d_dirs d !! dir with
  | Some entries => Ok (dir_names dir d entries)
  | None => Raise (no_such_file dir)
  end.

(** [os.remove(p)]: it removes a file, and raises on a directory. *)
Definition os_remove (p : path) (d : Disk) : result unit * Disk :=
  match d_dirs d !! p.1 with
  | Some entries =>
      if decide (p.2 ∈ subdirs p.1 d)
      then (Raise (is_a_directory (path_str p)), d)
      else
        match entries !! p.2 with
        | Some _ =>
            (Ok tt, mkDisk (<[p.1 := delete p.2 entries]> (d_dirs d))
                           (d_next_ino d) (d_modules d))
        | None => (Raise (no_such_file (path_str p)), d)
        end
  | None => (Raise (no_such_file (path_str p)), d)
  end.

(** The test of the loop: [(f.endswith('so')) and (f.count("libKeOps" + lang))]. *)
Definition is_keops_lib (lang f : string) : bool :=
  str_endswith f "so" && bool_decide (0 < str_count f ("libKeOps" +:+ lang))%nat.

(** The line printed for a removed file. *)
Definition removed_line (dir f : string) : string :=
  path_str (os_path_join dir f) +:+ " has been removed.".

(** The [for] loop of [clean_pykeops] over the listing; the third
    component collects the lines printed. *)
Fixpoint clean_loop (dir lang : string) (files : list string) (d : Disk)
    (out : list string) : result unit * Disk * list string :=
  match files with
  | [] => (Ok tt, d, out)
  | f :: rest =>
      if is_keops_lib lang f
      then match os_remove (os_path_join dir f) d with
           | (Ok _, d') =>
               clean_loop dir lang rest d'
                 (out ++ [removed_line dir f])
           | (Raise e, d') => (Raise e, d', out)
           end
      else clean_loop dir lang rest d out
  end.

(** The directory [clean_pykeops] works on: [bin_folder] when [path] is
    the empty string. *)
Definition clean_dir (bin_folder path : string) : string :=
  if decide (path = "") then bin_folder else path.

(** [sub] occurs somewhere in [s]. *)
Fixpoint occurs (sub s : string) : bool :=
  String.prefix sub s ||
  match s with
  | EmptyString => false
  | String _ r => occurs sub r
  end.

(** The message of the [ValueError]; it quotes the two names. *)
Definition bad_lang_msg : string :=
  let q := String (ascii_of_nat 34) EmptyString in
  "[pyKeOps:] lang should be the empty string, " +:+ q +:+ "numpy" +:+ q
  +:+ " or " +:+ q +:+ "torch" +:+ q.

(** [clean_pykeops(path, lang)], both arguments defaulting to the empty
    string; [bin_folder] is [pykeops.config.bin_folder]. It returns the
    outcome, the disk it leaves and the lines it printed. *)
Definition clean_pykeops (bin_folder : string) (path lang : string) (d : Disk)
  : result unit * Disk * list string :=
  if decide (lang ∉ ["numpy"; "torch"; ""])
  then (Raise (ValueError bad_lang_msg), d, [])
  else
    let path := clean_dir bin_folder path in
    let out := ["Cleaning " +:+ path] in
    match os_listdir path d with
    | Raise e => (Raise e, d, out)
    | Ok files => clean_loop path lang files d out
    end.

(** What holds of every system the scheduler reaches, cleanup or not: the
    files of the calls are distinct open file descriptions, and a call
    inside its critical section holds the lock of its file. *)
Record holder_inv {R} (sys : World * list (Call R)) : Prop := {
  hi_fd : forall i c f,
    sys.2 !! i = Some c -> pc_file (c_pc c) = Some f ->
    (f_fd f < w_next_fd sys.1)%nat;
  hi_held : forall i c f,
    sys.2 !! i = Some c -> pc_holds (c_pc c) = Some f ->
    w_locks sys.1 !! f_ino f = Some (f_fd f);
  hi_distinct : forall i j ci cj fi fj,
    i <> j -> sys.2 !! i = Some ci -> sys.2 !! j = Some cj ->
    pc_file (c_pc ci) = Some fi -> pc_file (c_pc cj) = Some fj ->
    f_fd fi <> f_fd fj
}.

(** ** Progress of concurrent calls *)

(** A decorated function that ends, with a value or an exception, on every
    disk. *)
Definition always_returns {R} (func : Action R) : Prop :=
  forall self d, func self d <> None.

(** Every lock of the table is the lock of a call that is inside its
    critical section with that very file. *)
Definition locks_owned {R} (sys : World * list (Call R)) : Prop :=
  forall ino hd, w_locks sys.1 !! ino = Some hd ->
    exists j cj, sys.2 !! j = Some cj /\
                 pc_holds (c_pc cj) = Some (mkFile hd ino).

Definition finished {R} (c : Call R) : bool :=
  match c_pc c with
  | Finished _ => true
  | _ => false
  end.

(** *** Concrete worlds and actions used to exercise the statements *)

Definition empty_disk : Disk := mkDisk ∅ 0 ∅.
Definition release_world : World := mkWorld empty_disk ∅ 0 "Release" [].
Definition debug_world : World := mkWorld empty_disk ∅ 0 "Debug" [].
Definition keops_target : Target := mkTarget "build" "libKeOps".

(** A compilation that succeeds: it writes the shared object into the
    build folder, makes the module importable and returns 42. *)
Definition compile_ok : Action Z := fun self d =>
  Some (Ok 42,
        mkDisk (alter (insert (dll_name self +:+ ".so") (d_next_ino d))
                      (build_folder self) (d_dirs d))
               (S (d_next_ino d))
               ({[dll_name self]} ∪ d_modules d)).


(** A compilation that fails. *)
Definition compile_fails : Action Z := fun self d =>
  Some (Raise (PyExc "CalledProcessError" "cmake returned non-zero exit status 1"), d).

(** A bin folder with two KeOps libraries, another library and a text
    file, and a sub-directory that holds an older library. *)
Definition bin_disk : Disk :=
  mkDisk {[ "bin" := {[ "libKeOpsnumpyabc.so" := 1%nat;
                        "libKeOpstorchabc.so" := 2%nat;
                        "other.so" := 3%nat;
                        "libKeOpsnumpy.txt" := 4%nat ]};
            "bin/old" := {[ "libKeOpsnumpyold.so" := 5%nat ]} ]} 6 ∅.

(** A bin folder with a library and a sub-directory whose name passes the
    test of the loop. *)
Definition bin_disk_subdir : Disk :=
  mkDisk {[ "bin" := {[ "libKeOpsnumpyabc.so" := 1%nat ]};
            "bin/libKeOps_so" := ∅ ]} 2 ∅.

(** A compilation that tidies up after itself: it installs the module and
    removes its build folder. *)
Definition compile_and_tidy : Action Z := fun self d =>
  Some (Ok 7,
        mkDisk (delete (build_folder self) (d_dirs d)) (d_next_ino d)
               ({[dll_name self]} ∪ d_modules d)).
(** A world in which the build folder of [keops_target] is there already,
    empty. *)
Definition built_world : World :=
  mkWorld (mkDisk {[ "build" := ∅ ]} 0 ∅) ∅ 0 "Debug" [].

(** ** Properties of the shape checker *)

Section Broadcasting.

Lemma tuple_mul_one (n : Z) : tuple_mul [1] n = replicate (Z.to_nat n) 1.
Proof.
  unfold tuple_mul. induction (Z.to_nat n) as [|k IH]; simpl; [done|].
  by rewrite IH.
Qed.

Lemma padded_dims_1_left_pad (dims_1 dims_2 : list Z) :
  padded_dims_1 dims_1 dims_2
  = left_pad (length dims_1 `max` length dims_2) dims_1.
Proof.
  unfold padded_dims_1, left_pad, len. rewrite tuple_mul_one.
  do 2 f_equal. lia.
Qed.

Lemma padded_dims_2_left_pad (dims_1 dims_2 : list Z) :
  padded_dims_2 dims_1 dims_2
  = left_pad (length dims_1 `max` length dims_2) dims_2.
Proof.
  unfold padded_dims_2, left_pad, len. rewrite tuple_mul_one.
  do 2 f_equal. lia.
Qed.

Lemma padded_dims_swap (dims_1 dims_2 : list Z) :
  padded_dims_2 dims_1 dims_2 = padded_dims_1 dims_2 dims_1.
Proof. reflexivity. Qed.

Lemma length_left_pad (n : nat) (dims : list Z) :
  (length dims <= n)%nat -> length (left_pad n dims) = n.
Proof.
  intros Hle. unfold left_pad. rewrite length_app, length_replicate. lia.
Qed.

Lemma check_pairs_ok (dims_1 dims_2 : list Z) (pairs : list (Z * Z)) :
  Forall (fun p => compatible p.1 p.2) pairs ->
  check_pairs dims_1 dims_2 pairs = Ok tt.
Proof.
  induction 1 as [|[a b] rest Hc _ IH]; simpl; [done|].
  unfold compatible in Hc; simpl in Hc.
  case_decide; [lia | exact IH].
Qed.

Lemma check_pairs_raise (dims_1 dims_2 : list Z) (pairs : list (Z * Z)) :
  ~ Forall (fun p => compatible p.1 p.2) pairs ->
  check_pairs dims_1 dims_2 pairs
  = Raise (ValueError (incompatible_msg dims_1 dims_2)).
Proof.
  induction pairs as [|[a b] rest IH]; simpl; intros Hn.
  - destruct Hn. constructor.
  - case_decide as Hbad; [done|]. apply IH. intros Hrest. apply Hn.
    constructor; [|done]. unfold compatible; simpl. lia.
Qed.

Lemma Forall2_zip (p1 p2 : list Z) :
  length p1 = length p2 ->
  Forall2 compatible p1 p2 <-> Forall (fun p => compatible p.1 p.2) (zip p1 p2).
Proof.
  revert p2. induction p1 as [|a p1 IH]; intros [|b p2] Hlen;
    simplify_eq/=; split; intros H; try by constructor.
  - inversion_clear H. constructor; [done|]. by apply IH.
  - inversion_clear H. constructor; [done|]. by apply IH.
Qed.

Lemma max_tuple_zip_with (a b : list Z) : max_tuple a b = zip_with Z.max a b.
Proof.
  unfold max_tuple. revert b.
  induction a as [|x a IH]; intros [|y b]; simpl; [done..|].
  f_equal. apply IH.
Qed.

Lemma padded_lengths (dims_1 dims_2 : list Z) :
  length (padded_dims_1 dims_1 dims_2) = length (padded_dims_2 dims_1 dims_2).
Proof.
  rewrite padded_dims_1_left_pad, padded_dims_2_left_pad.
  rewrite !length_left_pad; lia.
Qed.

Lemma check_broadcasting_compatible (dims_1 dims_2 : list Z) :
  Forall2 compatible (padded_dims_1 dims_1 dims_2) (padded_dims_2 dims_1 dims_2) ->
  check_broadcasting (Some dims_1) (Some dims_2)
  = Ok (Some (zip_with Z.max (padded_dims_1 dims_1 dims_2)
                             (padded_dims_2 dims_1 dims_2))).
Proof.
  intros Hc. apply Forall2_zip in Hc; [|apply padded_lengths].
  unfold check_broadcasting; simpl.
  rewrite (check_pairs_ok _ _ _ Hc); simpl. by rewrite max_tuple_zip_with.
Qed.

Lemma check_broadcasting_incompatible (dims_1 dims_2 : list Z) :
  ~ Forall2 compatible (padded_dims_1 dims_1 dims_2) (padded_dims_2 dims_1 dims_2) ->
  check_broadcasting (Some dims_1) (Some dims_2)
  = Raise (ValueError (incompatible_msg dims_1 dims_2)).
Proof.
  intros Hc. rewrite Forall2_zip in Hc by apply padded_lengths.
  unfold check_broadcasting; simpl.
  by rewrite (check_pairs_raise _ _ _ Hc).
Qed.

Lemma compatible_sym (d1 d2 : Z) : compatible d1 d2 -> compatible d2 d1.
Proof. unfold compatible. lia. Qed.

Lemma zip_with_max_comm (a b : list Z) : zip_with Z.max a b = zip_with Z.max b a.
Proof.
  revert b. induction a as [|x a IH]; intros [|y b]; simpl; [done..|].
  by rewrite Z.max_comm, IH.
Qed.

End Broadcasting.

(** ** The error message determines the two shapes *)

Section Message.

Lemma all_chars_app (P : ascii -> bool) (s1 s2 : string) :
  all_chars P (s1 +:+ s2) = all_chars P s1 && all_chars P s2.
Proof. induction s1 as [|c s1 IH]; simpl; [done|]. by rewrite IH, andb_assoc. Qed.

(** Two strings that start with a run of [P]-characters followed by one
    character outside [P] agree on the run, the character and the rest. *)
Lemma token_split (P : ascii -> bool) (s1 s2 : string) (c1 c2 : ascii)
    (r1 r2 : string) :
  all_chars P s1 = true -> all_chars P s2 = true ->
  P c1 = false -> P c2 = false ->
  s1 +:+ String c1 r1 = s2 +:+ String c2 r2 ->
  s1 = s2 /\ c1 = c2 /\ r1 = r2.
Proof.
  revert s2. induction s1 as [|a s1 IH]; intros [|b s2]; cbn;
    intros H1 H2 Hc1 Hc2 Heq.
  - by injection Heq as -> ->.
  - injection Heq as -> _. apply andb_prop in H2 as [Hb _]. congruence.
  - injection Heq as -> _. apply andb_prop in H1 as [Ha _]. congruence.
  - injection Heq as -> Heq.
    apply andb_prop in H1 as [_ H1]. apply andb_prop in H2 as [_ H2].
    destruct (IH s2 H1 H2 Hc1 Hc2 Heq) as (-> & -> & ->). done.
Qed.

Lemma pretty_N_char_int (x : N) : int_char (pretty_N_char x) = true.
Proof. destruct x as [|p]; [done|]. by do 4 (try destruct p as [p|p|]). Qed.

Lemma pretty_N_go_int (x : N) (s : string) :
  all_chars int_char s = true -> all_chars int_char (pretty_N_go x s) = true.
Proof.
  revert s. induction (N.lt_wf_0 x) as [x _ IH]; intros s Hs.
  destruct (decide (x = 0)%N) as [->|Hx]; [by rewrite pretty_N_go_0|].
  rewrite pretty_N_go_step by lia. apply IH.
  - apply N.div_lt; lia.
  - cbn. by rewrite pretty_N_char_int.
Qed.

Lemma pretty_Z_int (x : Z) : all_chars int_char (pretty x) = true.
Proof.
  assert (forall p : positive, all_chars int_char (pretty p) = true) as Hpos.
  { intros p. unfold pretty, pretty_positive, pretty, pretty_N.
    case_decide; [done|]. by apply pretty_N_go_int. }
  destruct x as [|p|p]; [done|apply Hpos|].
  change (pretty (Z.neg p)) with ("-" +:+ pretty p). cbn. apply Hpos.
Qed.


Lemma string_app_assoc (s1 s2 s3 : string) :
  (s1 +:+ s2) +:+ s3 = s1 +:+ (s2 +:+ s3).
Proof.
  induction s1 as [|c s1 IH]; [done|]. exact (f_equal (String c) IH).
Qed.

Lemma int_chars_tuple_chars (s : string) :
  all_chars int_char s = true -> all_chars tuple_char s = true.
Proof.
  induction s as [|c s IH]; simpl; [done|]. intros [Hc Hs]%andb_prop.
  unfold tuple_char at 1. by rewrite Hc, IH.
Qed.

Lemma repr_items_chars (t : list Z) :
  all_chars tuple_char (repr_items t) = true.
Proof.
  induction t as [|x [|y t] IH]; [done|..].
  - apply int_chars_tuple_chars, pretty_Z_int.
  - change (repr_items (x :: y :: t))
      with (pretty x +:+ ", " +:+ repr_items (y :: t)).
    rewrite !all_chars_app, IH, (int_chars_tuple_chars _ (pretty_Z_int x)).
    done.
Qed.

(** A printed tuple is a run of tuple characters closed by a parenthesis. *)
Lemma repr_tuple_body (t : list Z) :
  exists body, repr_tuple t = body +:+ ")" /\ all_chars tuple_char body = true.
Proof.
  destruct t as [|x [|y t]].
  - by exists "(".
  - exists ("(" +:+ pretty x +:+ ","). split.
    + change (repr_tuple [x]) with ("(" +:+ pretty x +:+ ",)").
      rewrite !string_app_assoc. reflexivity.
    + rewrite !all_chars_app, (int_chars_tuple_chars _ (pretty_Z_int x)).
      reflexivity.
  - exists ("(" +:+ repr_items (x :: y :: t)). split; [done|].
    rewrite all_chars_app, repr_items_chars. reflexivity.
Qed.

(** Comparing two printed integers, each followed by a character that is
    not one of an integer. *)
Lemma pretty_split (x y : Z) (c1 c2 : ascii) (r1 r2 : string) :
  int_char c1 = false -> int_char c2 = false ->
  pretty x +:+ String c1 r1 = pretty y +:+ String c2 r2 ->
  x = y /\ c1 = c2 /\ r1 = r2.
Proof.
  intros Hc1 Hc2 Heq.
  destruct (token_split int_char _ _ _ _ _ _
              (pretty_Z_int x) (pretty_Z_int y) Hc1 Hc2 Heq) as (Hp & ? & ?).
  by apply (inj pretty) in Hp.
Qed.

Lemma repr_items_cons2 (x y : Z) (t : list Z) (s : string) :
  repr_items (x :: y :: t) +:+ s
  = pretty x +:+ String "," (String " " (repr_items (y :: t) +:+ s)).
Proof.
  change (repr_items (x :: y :: t))
    with (pretty x +:+ ", " +:+ repr_items (y :: t)).
  by rewrite !string_app_assoc.
Qed.

Lemma repr_items_inj (x y : Z) (t t' : list Z) :
  repr_items (x :: t) +:+ ")" = repr_items (y :: t') +:+ ")" ->
  x :: t = y :: t'.
Proof.
  revert x y t'. induction t as [|x2 t IH]; intros x y [|y2 t'] Heq.
  - by destruct (pretty_split x y ")" ")" "" "" eq_refl eq_refl Heq) as [-> _].
  - rewrite repr_items_cons2 in Heq.
    by destruct (pretty_split x y ")" "," "" _ eq_refl eq_refl Heq) as (_ & ? & _).
  - rewrite repr_items_cons2 in Heq.
    by destruct (pretty_split x y "," ")" _ "" eq_refl eq_refl Heq) as (_ & ? & _).
  - rewrite !repr_items_cons2 in Heq.
    destruct (pretty_split x y "," "," _ _ eq_refl eq_refl Heq) as (-> & _ & Hr).
    injection Hr as Hr. by rewrite (IH _ _ _ Hr).
Qed.

Lemma repr_tuple_inj (t t' : list Z) : repr_tuple t = repr_tuple t' -> t = t'.
Proof.
  assert (Hone : forall x : Z, repr_tuple [x] = String "(" (pretty x +:+ ",)")) by done.
  assert (Hmore : forall (x y : Z) l, repr_tuple (x :: y :: l)
            = String "(" (repr_items (x :: y :: l) +:+ ")")) by done.
  assert (Hnil : forall (y : Z) (c : ascii) r, int_char c = false -> c <> ")"%char ->
            repr_tuple [] <> String "(" (pretty y +:+ String c r)).
  { intros y c r Hc Hne [= Heq].
    destruct (token_split int_char "" (pretty y) ")" c "" r
                eq_refl (pretty_Z_int y) eq_refl Hc Heq) as (_ & ? & _).
    congruence. }
  destruct t as [|x [|x2 t]]; destruct t' as [|y [|y2 t']];
    rewrite ?Hone, ?Hmore, ?repr_items_cons2; intros Heq; try done.
  - by destruct (Hnil y ","%char ")").
  - by destruct (Hnil y ","%char (String " " (repr_items (y2 :: t') +:+ ")"))).
  - symmetry in Heq. by destruct (Hnil x ","%char ")").
  - injection Heq as Heq.
    by destruct (pretty_split x y "," "," _ _ eq_refl eq_refl Heq) as (-> & _).
  - injection Heq as Heq.
    by destruct (pretty_split x y "," "," _ _ eq_refl eq_refl Heq) as (_ & _ & ?).
  - symmetry in Heq.
    by destruct (Hnil x ","%char (String " " (repr_items (x2 :: t) +:+ ")"))).
  - injection Heq as Heq.
    by destruct (pretty_split x y "," "," _ _ eq_refl eq_refl Heq) as (_ & _ & ?).
  - injection Heq as Heq.
    destruct (pretty_split x y "," "," _ _ eq_refl eq_refl Heq) as (-> & _ & Hr).
    injection Hr as Hr. by rewrite (repr_items_inj _ _ _ _ Hr).
Qed.

(** The message of the [ValueError] determines both shapes. *)
Lemma incompatible_msg_inj (dims_1 dims_2 dims_1' dims_2' : list Z) :
  incompatible_msg dims_1 dims_2 = incompatible_msg dims_1' dims_2' ->
  dims_1 = dims_1' /\ dims_2 = dims_2'.
Proof.
  unfold incompatible_msg. intros Heq. apply (inj (String.append _)) in Heq.
  destruct (repr_tuple_body dims_1) as (b1 & E1 & H1).
  destruct (repr_tuple_body dims_1') as (b1' & E1' & H1').
  destruct (repr_tuple_body dims_2) as (b2 & E2 & H2).
  destruct (repr_tuple_body dims_2') as (b2' & E2' & H2').
  pose proof Heq as Heq'. rewrite E1, E1', !string_app_assoc in Heq'.
  destruct (token_split tuple_char b1 b1' ")" ")" _ _ H1 H1' eq_refl eq_refl Heq')
    as (Hb1 & _ & Hrest).
  assert (dims_1 = dims_1') as <-.
  { apply repr_tuple_inj. by rewrite E1, E1', Hb1. }
  split; [done|].
  apply (inj (String.append _)) in Hrest.
  rewrite E2, E2', !string_app_assoc in Hrest.
  destruct (token_split tuple_char b2 b2' ")" ")" _ _ H2 H2' eq_refl eq_refl Hrest)
    as (Hb2 & _).
  apply repr_tuple_inj. by rewrite E2, E2', Hb2.
Qed.

End Message.

(** C1. For two present shapes, [check_broadcasting] pads the shorter one on
    the left with 1s up to the longer length; it returns exactly when every
    aligned pair is equal or contains a 1, the returned shape being the
    elementwise maximum of the padded shapes; otherwise it raises the
    [ValueError] whose message is built from the two unpadded shapes, and
    no other pair of shapes gives that message. *)
Theorem check_broadcasting_spec (dims_1 dims_2 : list Z) :
  let n := (length dims_1 `max` length dims_2)%nat in
  let p1 := left_pad n dims_1 in
  let p2 := left_pad n dims_2 in
  padded_dims_1 dims_1 dims_2 = p1 /\ padded_dims_2 dims_1 dims_2 = p2 /\
  length p1 = n /\ length p2 = n /\
  (is_ok (check_broadcasting (Some dims_1) (Some dims_2)) = true
     <-> Forall2 compatible p1 p2) /\
  (Forall2 compatible p1 p2 ->
     check_broadcasting (Some dims_1) (Some dims_2)
     = Ok (Some (zip_with Z.max p1 p2))) /\
  (~ Forall2 compatible p1 p2 ->
     check_broadcasting (Some dims_1) (Some dims_2)
     = Raise (ValueError ("Incompatible batch dimensions: "
                          +:+ repr_tuple dims_1 +:+ " and "
                          +:+ repr_tuple dims_2 +:+ "."))) /\
  (forall dims_1' dims_2' : list Z,
     incompatible_msg dims_1' dims_2' = incompatible_msg dims_1 dims_2 ->
     dims_1' = dims_1 /\ dims_2' = dims_2).
Proof.
  intros n p1 p2.
  pose proof (padded_dims_1_left_pad dims_1 dims_2) as E1.
  pose proof (padded_dims_2_left_pad dims_1 dims_2) as E2.
  fold n in E1, E2. fold p1 in E1. fold p2 in E2.
  pose proof (check_broadcasting_compatible dims_1 dims_2) as Hok.
  pose proof (check_broadcasting_incompatible dims_1 dims_2) as Hbad.
  rewrite E1, E2 in Hok, Hbad.
  split_and!; try done.
  - apply length_left_pad; lia.
  - apply length_left_pad; lia.
  - destruct (decide (Forall2 compatible p1 p2)) as [Hc|Hc].
    + by rewrite (Hok Hc).
    + by rewrite (Hbad Hc).
  - intros dims_1' dims_2'. apply incompatible_msg_inj.
Qed.

(** C8. An absent shape is the identity of [check_broadcasting] on either
    side, also when the other argument is absent too. *)
Theorem check_broadcasting_None (s : option (list Z)) :
  check_broadcasting None s = Ok s /\ check_broadcasting s None = Ok s.
Proof. split; [done|]. by destruct s. Qed.

(** C9. [check_broadcasting] returns the same shape in both argument
    orders, and it raises in one order exactly when it raises in the
    other. *)
Theorem check_broadcasting_comm (a b : option (list Z)) :
  (forall r, check_broadcasting a b = Ok r <-> check_broadcasting b a = Ok r) /\
  (raises (check_broadcasting a b) <-> raises (check_broadcasting b a)).
Proof.
  assert (Hsym : forall x y : option (list Z),
    (forall r, check_broadcasting x y = Ok r -> check_broadcasting y x = Ok r) /\
    (raises (check_broadcasting x y) -> raises (check_broadcasting y x))).
  { intros [d1|] [d2|]; try (split; [by intros r <- | by intros [e ?]]).
    pose proof (check_broadcasting_compatible d1 d2) as Hok12.
    pose proof (check_broadcasting_incompatible d1 d2) as Hbad12.
    pose proof (check_broadcasting_compatible d2 d1) as Hok21.
    pose proof (check_broadcasting_incompatible d2 d1) as Hbad21.
    rewrite <- !padded_dims_swap in Hok21, Hbad21.
    rewrite (padded_dims_swap d2 d1) in Hok21, Hbad21.
    set (p1 := padded_dims_1 d1 d2) in *. set (p2 := padded_dims_1 d2 d1) in *.
    change (padded_dims_2 d1 d2) with p2 in *.
    destruct (decide (Forall2 compatible p1 p2)) as [Hc|Hc].
    - assert (Forall2 compatible p2 p1) as Hc'.
      { apply Forall2_flip. eapply Forall2_impl; [exact Hc|].
        intros ??. apply compatible_sym. }
      rewrite (Hok12 Hc), (Hok21 Hc'). split.
      + intros r <-. by rewrite zip_with_max_comm.
      + by intros [e ?].
    - assert (~ Forall2 compatible p2 p1) as Hc'.
      { intros H. apply Hc. apply Forall2_flip. eapply Forall2_impl; [exact H|].
        intros ??. apply compatible_sym. }
      rewrite (Hbad12 Hc), (Hbad21 Hc'). split; [done|]. intros _. by eexists. }
  split; [intros r|]; split; apply Hsym.
Qed.

(** The examples of the specification. *)
Example check_broadcasting_15_35 :
  check_broadcasting (Some [1; 5]) (Some [3; 5]) = Ok (Some [3; 5]).
Proof. reflexivity. Qed.

Example check_broadcasting_5_35 :
  check_broadcasting (Some [5]) (Some [3; 5]) = Ok (Some [3; 5]).
Proof. reflexivity. Qed.

Example check_broadcasting_34_24 :
  check_broadcasting (Some [3; 4]) (Some [2; 4])
  = Raise (ValueError "Incompatible batch dimensions: (3, 4) and (2, 4).").
Proof. vm_compute. reflexivity. Qed.

(** ** More on the shape checker *)

Section Shapes.

Implicit Types (a b c r : list Z) (n m : nat).

(** When [check_broadcasting] returns on two present shapes, and what. *)
Lemma check_broadcasting_Ok a b r :
  check_broadcasting (Some a) (Some b) = Ok (Some r) <->
  Forall2 compatible (padded_dims_1 a b) (padded_dims_2 a b) /\
  r = zip_with Z.max (padded_dims_1 a b) (padded_dims_2 a b).
Proof.
  destruct (decide (Forall2 compatible (padded_dims_1 a b) (padded_dims_2 a b)))
    as [Hc|Hc].
  - rewrite (check_broadcasting_compatible a b Hc). split.
    + by intros [= <-].
    + by intros [_ ->].
  - rewrite (check_broadcasting_incompatible a b Hc). split; [done|tauto].
Qed.

Lemma left_pad_ge n a : (length a <= n)%nat ->
  forall m, (n <= m)%nat ->
    left_pad m a = replicate (m - n) 1 ++ left_pad n a.
Proof.
  intros Hn m Hm. unfold left_pad. rewrite app_assoc, <- replicate_add.
  do 2 f_equal. lia.
Qed.

Lemma left_pad_id a n : (n <= length a)%nat -> left_pad n a = a.
Proof. intros Hn. unfold left_pad. by replace (n - length a)%nat with 0%nat by lia. Qed.

Lemma length_zip_with_max a b :
  length a = length b -> length (zip_with Z.max a b) = length a.
Proof. intros H. rewrite length_zip_with. lia. Qed.

(** X1. [max_tuple] stops at the end of the shorter tuple: its length is
    the smaller of the two lengths, and it has an element at a position
    exactly when both tuples have one, the larger of the two. *)
Theorem max_tuple_truncates a b :
  length (max_tuple a b) = (length a `min` length b)%nat /\
  forall i : nat,
    max_tuple a b !! i
    = match a !! i, b !! i with
      | Some x, Some y => Some (x `max` y)
      | _, _ => None
      end.
Proof.
  rewrite max_tuple_zip_with. split; [apply length_zip_with|].
  intros i. rewrite lookup_zip_with.
  destruct (a !! i); [|done]. by destruct (b !! i).
Qed.


Lemma padded_dims_pad a b :
  padded_dims_1 a b = left_pad (length a `max` length b) a /\
  padded_dims_2 a b = left_pad (length a `max` length b) b /\
  length (left_pad (length a `max` length b) a) = (length a `max` length b)%nat /\
  length (left_pad (length a `max` length b) b) = (length a `max` length b)%nat.
Proof.
  rewrite padded_dims_1_left_pad, padded_dims_2_left_pad.
  rewrite !length_left_pad by lia. done.
Qed.

(** X2. The shape [check_broadcasting] returns has the length of the
    longer input, and each of its dimensions is at least the dimension of
    either input at that place (counted from the right). *)
Theorem check_broadcasting_rank_bound a b r :
  check_broadcasting (Some a) (Some b) = Ok (Some r) ->
  length r = (length a `max` length b)%nat /\
  forall (i : nat) (x : Z),
    (reverse a !! i = Some x \/ reverse b !! i = Some x) ->
    exists y, reverse r !! i = Some y /\ x <= y.
Proof.
  rewrite check_broadcasting_Ok.
  destruct (padded_dims_pad a b) as (-> & -> & Hl1 & Hl2).
  set (n := (length a `max` length b)%nat) in *. intros [_ ->].
  assert (Hlen : length (zip_with Z.max (left_pad n a) (left_pad n b)) = n).
  { rewrite length_zip_with. lia. }
  split; [done|]. intros i x Hx.
  assert (Hrev : forall d : list Z, (length d <= n)%nat -> reverse d !! i = Some x ->
            left_pad n d !! (n - S i)%nat = Some x /\ (i < n)%nat).
  { intros d Hd Hi. pose proof (lookup_lt_Some _ _ _ Hi) as Hlt.
    rewrite length_reverse in Hlt.
    rewrite reverse_lookup in Hi by done. split; [|lia].
    unfold left_pad. rewrite lookup_app_r; rewrite length_replicate; [|lia].
    rewrite <- Hi. f_equal. lia. }
  assert (exists xa xb, left_pad n a !! (n - S i)%nat = Some xa /\
            left_pad n b !! (n - S i)%nat = Some xb /\ (i < n)%nat /\
            (x = xa \/ x = xb)) as (xa & xb & Ha & Hb & Hi & Hor).
  { destruct Hx as [Hx|Hx].
    - destruct (Hrev a) as [Ha Hi]; [lia|done|].
      destruct (lookup_lt_is_Some_2 (left_pad n b) (n - S i)) as [xb Hb]; [lia|].
      eauto 10.
    - destruct (Hrev b) as [Hb Hi]; [lia|done|].
      destruct (lookup_lt_is_Some_2 (left_pad n a) (n - S i)) as [xa Ha]; [lia|].
      eauto 10. }
  exists (xa `max` xb). split; [|lia].
  rewrite reverse_lookup by lia. rewrite Hlen.
  rewrite lookup_zip_with, Ha, Hb. done.
Qed.

Lemma check_broadcasting_rank_bound_witness :
  check_broadcasting (Some [5]) (Some [3; 1]) = Ok (Some [3; 5]) /\
  length [3; 5] = 2%nat.
Proof.
  split; [reflexivity|].
  apply (check_broadcasting_rank_bound [5] [3; 1] [3; 5]). reflexivity.
Defined.

Lemma compatible_max_l (x y : Z) :
  compatible x y -> compatible (x `max` y) x /\ (x `max` y) `max` x = x `max` y.
Proof. unfold compatible. lia. Qed.

Lemma compatible_max_r (x y : Z) :
  compatible x y -> compatible (x `max` y) y /\ (x `max` y) `max` y = x `max` y.
Proof. unfold compatible. lia. Qed.

Lemma Forall2_compatible_max (p q : list Z) :
  Forall2 compatible p q ->
  Forall2 compatible (zip_with Z.max p q) p /\
  zip_with Z.max (zip_with Z.max p q) p = zip_with Z.max p q /\
  Forall2 compatible (zip_with Z.max p q) q /\
  zip_with Z.max (zip_with Z.max p q) q = zip_with Z.max p q.
Proof.
  induction 1 as [|x y p q Hxy _ (IH1 & IH2 & IH3 & IH4)]; cbn; [done|].
  destruct (compatible_max_l x y Hxy) as [? ->].
  destruct (compatible_max_r x y Hxy) as [? ->].
  rewrite IH2, IH4. split_and!; by try constructor.
Qed.

(** X3. The returned shape absorbs its inputs: merging it again with
    either input (or with itself) succeeds and returns it unchanged. *)
Theorem check_broadcasting_absorbs a b r :
  check_broadcasting (Some a) (Some b) = Ok (Some r) ->
  check_broadcasting (Some r) (Some a) = Ok (Some r) /\
  check_broadcasting (Some r) (Some b) = Ok (Some r) /\
  check_broadcasting (Some r) (Some r) = Ok (Some r).
Proof.
  rewrite check_broadcasting_Ok.
  destruct (padded_dims_pad a b) as (-> & -> & Hl1 & Hl2).
  set (n := (length a `max` length b)%nat) in *. intros [Hc ->].
  set (r := zip_with Z.max (left_pad n a) (left_pad n b)).
  assert (Hlen : length r = n) by (unfold r; rewrite length_zip_with; lia).
  destruct (Forall2_compatible_max _ _ Hc) as (Ha1 & Ha2 & Hb1 & Hb2).
  fold r in Ha1, Ha2, Hb1, Hb2.
  assert (Hwith : forall d : list Z, (length d <= n)%nat ->
            Forall2 compatible r (left_pad n d) ->
            zip_with Z.max r (left_pad n d) = r ->
            check_broadcasting (Some r) (Some d) = Ok (Some r)).
  { intros d Hd Hcd Hmax. apply check_broadcasting_Ok.
    destruct (padded_dims_pad r d) as (-> & -> & _).
    rewrite Hlen. replace (n `max` length d)%nat with n by lia.
    rewrite (left_pad_id r) by lia. done. }
  split_and!.
  - apply Hwith; [lia|done..].
  - apply Hwith; [lia|done..].
  - apply Hwith; [lia|..]; rewrite left_pad_id by lia.
    + apply Forall2_same_length_lookup. split; [done|].
      intros i x y Hx Hy. left. congruence.
    + clear. induction r as [|x r IH]; cbn; [done|]. rewrite IH. f_equal. lia.
Qed.

Lemma check_broadcasting_absorbs_witness :
  check_broadcasting (Some [1; 5]) (Some [3; 1]) = Ok (Some [3; 5]) /\
  check_broadcasting (Some [3; 5]) (Some [1; 5]) = Ok (Some [3; 5]).
Proof.
  split; [reflexivity|].
  apply (check_broadcasting_absorbs [1; 5] [3; 1] [3; 5]). reflexivity.
Defined.


Lemma Forall2_ones_compatible (p : list Z) :
  Forall2 compatible (replicate (length p) 1) p /\
  zip_with Z.max (replicate (length p) 1) p = Z.max 1 <$> p /\
  Forall2 compatible p (replicate (length p) 1) /\
  zip_with Z.max p (replicate (length p) 1) = Z.max 1 <$> p.
Proof.
  induction p as [|x p (IH1 & IH2 & IH3 & IH4)]; cbn; [done|].
  rewrite IH2, IH4, (Z.max_comm x 1).
  split_and!; try done; constructor; unfold compatible; auto.
Qed.

Lemma left_pad_ones (k n : nat) :
  (k <= n)%nat -> left_pad n (replicate k 1) = replicate n 1.
Proof.
  intros Hk. unfold left_pad. rewrite length_replicate, <- replicate_add.
  f_equal. lia.
Qed.

Lemma fmap_max_one_id (d : list Z) :
  Forall (fun x => 1 <= x) d -> Z.max 1 <$> d = d.
Proof. induction 1 as [|x d Hx _ IH]; cbn; [done|]. rewrite IH. f_equal. lia. Qed.

(** X4. A shape made of 1s (the empty shape included) is compatible with
    every shape, in both orders; the shape returned is the other one,
    padded to the longer length, with every dimension below 1 raised to 1.
    So it is the other shape itself exactly when that shape is at least as
    long and has no dimension below 1: a dimension 0 does not survive. *)
Theorem check_broadcasting_ones (k : nat) (d : list Z) :
  let r := Z.max 1 <$> left_pad (k `max` length d) d in
  check_broadcasting (Some (replicate k 1)) (Some d) = Ok (Some r) /\
  check_broadcasting (Some d) (Some (replicate k 1)) = Ok (Some r) /\
  (r = d <-> (k <= length d)%nat /\ Forall (fun x => 1 <= x) d).
Proof.
  set (n := (k `max` length d)%nat). intros r.
  assert (Hn : length (left_pad n d) = n) by (apply length_left_pad; lia).
  destruct (Forall2_ones_compatible (left_pad n d)) as (H1 & H2 & H3 & H4).
  rewrite Hn in H1, H2, H3, H4.
  split; [|split].
  - apply check_broadcasting_Ok.
    destruct (padded_dims_pad (replicate k 1) d) as (-> & -> & _).
    rewrite length_replicate. fold n. rewrite left_pad_ones by lia. done.
  - apply check_broadcasting_Ok.
    destruct (padded_dims_pad d (replicate k 1)) as (-> & -> & _).
    rewrite length_replicate. replace (length d `max` k)%nat with n by lia.
    rewrite left_pad_ones by lia. done.
  - unfold r. split.
    + intros Heq. assert (length d = n) as Hd.
      { rewrite <- Heq at 1. by rewrite length_fmap. }
      split; [lia|]. rewrite left_pad_id in Heq by lia.
      rewrite Forall_lookup. intros i x Hx.
      apply (f_equal (.!! i)) in Heq. rewrite list_lookup_fmap, Hx in Heq.
      cbn in Heq. injection Heq. lia.
    + intros [Hk Hd]. rewrite left_pad_id by lia. by apply fmap_max_one_id.
Qed.

(** A dimension 0 against the empty shape comes back as 1. *)
Example check_broadcasting_zero_dim :
  check_broadcasting (Some []) (Some [0; 4]) = Ok (Some [1; 4]).
Proof. reflexivity. Qed.

Lemma compatible_assoc (x y z : Z) :
  1 <= x -> 1 <= y -> 1 <= z ->
  (compatible x y /\ compatible (x `max` y) z) <->
  (compatible y z /\ compatible x (y `max` z)).
Proof. unfold compatible. lia. Qed.

Lemma Forall2_compatible_assoc (pa pb pc : list Z) :
  length pa = length pb -> length pb = length pc ->
  Forall (fun x => 1 <= x) pa -> Forall (fun x => 1 <= x) pb ->
  Forall (fun x => 1 <= x) pc ->
  (Forall2 compatible pa pb /\ Forall2 compatible (zip_with Z.max pa pb) pc) <->
  (Forall2 compatible pb pc /\ Forall2 compatible pa (zip_with Z.max pb pc)).
Proof.
  revert pb pc. induction pa as [|x pa IH]; intros [|y pb] [|z pc] Hab Hbc;
    simplify_eq/=; [done|].
  intros [Hx Ha]%Forall_cons [Hy Hb]%Forall_cons [Hz Hc]%Forall_cons.
  rewrite !Forall2_cons. specialize (IH pb pc Hab Hbc Ha Hb Hc).
  pose proof (compatible_assoc x y z Hx Hy Hz). tauto.
Qed.

Lemma zip_with_max_assoc (pa pb pc : list Z) :
  zip_with Z.max (zip_with Z.max pa pb) pc
  = zip_with Z.max pa (zip_with Z.max pb pc).
Proof.
  revert pb pc. induction pa as [|x pa IH]; intros [|y pb] [|z pc]; cbn; try done.
  by rewrite IH, Z.max_assoc.
Qed.

Lemma left_pad_zip_with_max (n m : nat) (p q : list Z) :
  length p = n -> length q = n -> (n <= m)%nat ->
  left_pad m (zip_with Z.max p q)
  = zip_with Z.max (left_pad m p) (left_pad m q).
Proof.
  intros Hp Hq Hm. unfold left_pad. rewrite length_zip_with, Hp, Hq.
  replace (n `min` n)%nat with n by lia.
  rewrite zip_with_app by (by rewrite !length_replicate).
  f_equal. rewrite zip_with_replicate. done.
Qed.

Lemma left_pad_left_pad (n m : nat) (d : list Z) :
  (length d <= n)%nat -> (n <= m)%nat -> left_pad m (left_pad n d) = left_pad m d.
Proof.
  intros Hd Hm. rewrite (left_pad_ge n d Hd m Hm). unfold left_pad at 1.
  rewrite (length_left_pad n d Hd). done.
Qed.

Lemma Forall2_compatible_pad (n m : nat) (a b : list Z) :
  (length a <= n)%nat -> (length b <= n)%nat -> (n <= m)%nat ->
  Forall2 compatible (left_pad n a) (left_pad n b) <->
  Forall2 compatible (left_pad m a) (left_pad m b).
Proof.
  intros Ha Hb Hm. rewrite (left_pad_ge n a Ha m Hm), (left_pad_ge n b Hb m Hm).
  split.
  - intros H. apply Forall2_app; [|done].
    apply Forall2_replicate. by left.
  - intros H. apply Forall2_app_inv in H; [tauto|].
    by rewrite !length_replicate.
Qed.

Lemma Forall_left_pad_pos (n : nat) (d : list Z) :
  Forall (fun x => 1 <= x) d -> Forall (fun x => 1 <= x) (left_pad n d).
Proof. intros Hd. apply Forall_app. split; [|done]. by apply Forall_replicate. Qed.

(** The two ways of merging three shapes, on shapes padded to the longest
    of the three. *)
Lemma check_broadcasting_twice_l a b c r :
  let m := ((length a `max` length b) `max` length c)%nat in
  (exists ab, check_broadcasting (Some a) (Some b) = Ok (Some ab) /\
              check_broadcasting (Some ab) (Some c) = Ok (Some r)) <->
  Forall2 compatible (left_pad m a) (left_pad m b) /\
  Forall2 compatible (zip_with Z.max (left_pad m a) (left_pad m b)) (left_pad m c) /\
  r = zip_with Z.max (zip_with Z.max (left_pad m a) (left_pad m b)) (left_pad m c).
Proof.
  intros m. set (n := (length a `max` length b)%nat).
  destruct (padded_dims_pad a b) as (E1 & E2 & Hl1 & Hl2). fold n in E1, E2, Hl1, Hl2.
  set (ab := zip_with Z.max (left_pad n a) (left_pad n b)).
  assert (Hab : length ab = n) by (unfold ab; rewrite length_zip_with; lia).
  assert (Hpad : left_pad m ab = zip_with Z.max (left_pad m a) (left_pad m b)).
  { unfold ab. rewrite (left_pad_zip_with_max n m) by (done || lia).
    rewrite !left_pad_left_pad by lia. done. }
  assert (Hsecond : check_broadcasting (Some ab) (Some c) = Ok (Some r) <->
            Forall2 compatible (left_pad m ab) (left_pad m c) /\
            r = zip_with Z.max (left_pad m ab) (left_pad m c)).
  { rewrite check_broadcasting_Ok.
    destruct (padded_dims_pad ab c) as (-> & -> & _). rewrite Hab. done. }
  rewrite <- Hpad, <- (Forall2_compatible_pad n m a b) by lia.
  split.
  - intros (ab' & [Hc ->]%check_broadcasting_Ok & H2).
    rewrite E1, E2 in Hc, H2. fold ab in H2. apply Hsecond in H2. tauto.
  - intros (Hc & H2 & ->). exists ab. split.
    + apply check_broadcasting_Ok. by rewrite E1, E2.
    + by apply Hsecond.
Qed.

Lemma check_broadcasting_twice_r a b c r :
  let m := ((length a `max` length b) `max` length c)%nat in
  (exists bc, check_broadcasting (Some b) (Some c) = Ok (Some bc) /\
              check_broadcasting (Some a) (Some bc) = Ok (Some r)) <->
  Forall2 compatible (left_pad m b) (left_pad m c) /\
  Forall2 compatible (left_pad m a) (zip_with Z.max (left_pad m b) (left_pad m c)) /\
  r = zip_with Z.max (left_pad m a) (zip_with Z.max (left_pad m b) (left_pad m c)).
Proof.
  intros m. set (n := (length b `max` length c)%nat).
  destruct (padded_dims_pad b c) as (E1 & E2 & Hl1 & Hl2). fold n in E1, E2, Hl1, Hl2.
  set (bc := zip_with Z.max (left_pad n b) (left_pad n c)).
  assert (Hbc : length bc = n) by (unfold bc; rewrite length_zip_with; lia).
  assert (Hpad : left_pad m bc = zip_with Z.max (left_pad m b) (left_pad m c)).
  { unfold bc. rewrite (left_pad_zip_with_max n m) by (done || lia).
    rewrite !left_pad_left_pad by lia. done. }
  assert (Hsecond : check_broadcasting (Some a) (Some bc) = Ok (Some r) <->
            Forall2 compatible (left_pad m a) (left_pad m bc) /\
            r = zip_with Z.max (left_pad m a) (left_pad m bc)).
  { rewrite check_broadcasting_Ok.
    destruct (padded_dims_pad a bc) as (-> & -> & _). rewrite Hbc.
    replace (length a `max` n)%nat with m by lia. done. }
  rewrite <- Hpad, <- (Forall2_compatible_pad n m b c) by lia.
  split.
  - intros (bc' & [Hc ->]%check_broadcasting_Ok & H2).
    rewrite E1, E2 in Hc, H2. fold bc in H2. apply Hsecond in H2. tauto.
  - intros (Hc & H2 & ->). exists bc. split.
    + apply check_broadcasting_Ok. by rewrite E1, E2.
    + by apply Hsecond.
Qed.

(** X5. On shapes whose dimensions are all at least 1, merging is
    associative: merging [a] with [b] and the result with [c] returns [r]
    exactly when merging [a] with the result of [b] and [c] does; one way
    fails exactly when the other does. *)
Theorem check_broadcasting_assoc a b c r :
  Forall (fun x => 1 <= x) a -> Forall (fun x => 1 <= x) b ->
  Forall (fun x => 1 <= x) c ->
  (exists ab, check_broadcasting (Some a) (Some b) = Ok (Some ab) /\
              check_broadcasting (Some ab) (Some c) = Ok (Some r)) <->
  (exists bc, check_broadcasting (Some b) (Some c) = Ok (Some bc) /\
              check_broadcasting (Some a) (Some bc) = Ok (Some r)).
Proof.
  intros Ha Hb Hc.
  rewrite check_broadcasting_twice_l, check_broadcasting_twice_r.
  set (m := ((length a `max` length b) `max` length c)%nat).
  rewrite zip_with_max_assoc.
  pose proof (Forall2_compatible_assoc (left_pad m a) (left_pad m b) (left_pad m c)) as H.
  rewrite !length_left_pad in H by lia.
  specialize (H eq_refl eq_refl (Forall_left_pad_pos m a Ha)
                (Forall_left_pad_pos m b Hb) (Forall_left_pad_pos m c Hc)).
  tauto.
Qed.

Lemma check_broadcasting_assoc_witness :
  (exists ab, check_broadcasting (Some [2; 1]) (Some [3]) = Ok (Some ab) /\
              check_broadcasting (Some ab) (Some [4; 1; 1]) = Ok (Some [4; 2; 3])) /\
  (exists bc, check_broadcasting (Some [3]) (Some [4; 1; 1]) = Ok (Some bc) /\
              check_broadcasting (Some [2; 1]) (Some bc) = Ok (Some [4; 2; 3])).
Proof.
  assert (Hl : exists ab, check_broadcasting (Some [2; 1]) (Some [3]) = Ok (Some ab) /\
              check_broadcasting (Some ab) (Some [4; 1; 1]) = Ok (Some [4; 2; 3]))
    by (by exists [2; 3]).
  split; [exact Hl|].
  apply (check_broadcasting_assoc [2; 1] [3] [4; 1; 1] [4; 2; 3]);
    [repeat constructor; lia..|exact Hl].
Defined.

(** With a dimension 0 the order matters: 0 merges with 1 into 1, which
    merges with 5, but 0 does not merge with 5. *)
Example check_broadcasting_not_assoc_zero :
  result_bind (check_broadcasting (Some [0]) (Some [1]))
    (fun ab => check_broadcasting ab (Some [5])) = Ok (Some [5]) /\
  raises (result_bind (check_broadcasting (Some [1]) (Some [5]))
            (fun bc => check_broadcasting (Some [0]) bc)).
Proof. split; [reflexivity|]. vm_compute. by eexists. Qed.

End Shapes.

(** ** Properties of axis2cat and cat2axis *)

(** C10. On 0 and 1 both functions return [(a + 1) mod 2] and undo each
    other; on every other integer both raise a [ValueError]. *)
Theorem axis2cat_cat2axis_spec (a : Z) :
  (a = 0 \/ a = 1 ->
     axis2cat a = Ok ((a + 1) `mod` 2) /\
     cat2axis a = Ok ((a + 1) `mod` 2) /\
     result_bind (axis2cat a) cat2axis = Ok a /\
     result_bind (cat2axis a) axis2cat = Ok a) /\
  (a <> 0 /\ a <> 1 ->
     axis2cat a = Raise (ValueError "Axis should be 0 or 1.") /\
     cat2axis a = Raise (ValueError "Category should be Vi or Vj.")).
Proof.
  split.
  - by intros [-> | ->].
  - intros [H0 H1]. unfold axis2cat, cat2axis.
    rewrite !decide_False; [done|..];
      rewrite !elem_of_cons, elem_of_nil; tauto.
Qed.

Example axis2cat_values :
  axis2cat 0 = Ok 1 /\ axis2cat 1 = Ok 0 /\
  cat2axis 0 = Ok 1 /\ cat2axis 1 = Ok 0 /\
  axis2cat 2 = Raise (ValueError "Axis should be 0 or 1.") /\
  cat2axis (-1) = Raise (ValueError "Category should be Vi or Vj.").
Proof. by split_and!. Qed.

(** ** Properties of the backend dispatcher *)

Lemma get_tools_numpy {Tools} (numpytools torchtools : result Tools) :
  get_tools numpytools torchtools "numpy" = numpytools.
Proof. unfold get_tools. simpl. by destruct numpytools. Qed.

Lemma get_tools_torch {Tools} (numpytools torchtools : result Tools) :
  get_tools numpytools torchtools "torch" = torchtools /\
  get_tools numpytools torchtools "pytorch" = torchtools.
Proof. unfold get_tools. simpl. by destruct torchtools. Qed.

Lemma get_tools_other {Tools} (numpytools torchtools : result Tools) (lang : string) :
  lang <> "numpy" -> lang <> "torch" -> lang <> "pytorch" ->
  get_tools numpytools torchtools lang
  = Raise (UnboundLocalError "local variable 'tools' referenced before assignment").
Proof.
  intros H1 H2 H3. unfold get_tools.
  rewrite decide_False by done. rewrite decide_False by tauto. done.
Qed.

(** C4. For a name that is none of "numpy", "torch", "pytorch" no branch
    assigns [tools], and [return tools] raises [UnboundLocalError]: the
    call fails, but by accident, without an error that names the unknown
    backend. *)
Theorem get_tools_bogus {Tools} (numpytools torchtools : result Tools) :
  get_tools numpytools torchtools "numpy" = numpytools /\
  get_tools numpytools torchtools "torch" = torchtools /\
  get_tools numpytools torchtools "pytorch" = torchtools /\
  get_tools numpytools torchtools "bogus"
  = Raise (UnboundLocalError "local variable 'tools' referenced before assignment").
Proof.
  split_and!; try apply get_tools_torch; [apply get_tools_numpy|].
  by apply get_tools_other.
Qed.

(** ** Properties of clean_pykeops *)

Section Clean.

Implicit Types (d : Disk) (es : gmap string nat) (names out : list string)
  (dir lang f : string).

(** Removing a file of a directory leaves its sub-directories in place. *)
Lemma subdirs_remove dir d es es' :
  d_dirs d !! dir = Some es ->
  subdirs dir (mkDisk (<[dir := es']> (d_dirs d)) (d_next_ino d) (d_modules d))
  = subdirs dir d.
Proof.
  intros Hdir. unfold subdirs; cbn. rewrite dom_insert_lookup_L; eauto.
Qed.

Lemma NoDup_dir_names dir d es : NoDup (dir_names dir d es).
Proof.
  unfold dir_names. apply NoDup_app. split_and!.
  - apply NoDup_elements.
  - intros f Hf%elem_of_elements [Hn _]%list_elem_of_filter. done.
  - apply NoDup_filter, NoDup_fst_map_to_list.
Qed.

Lemma elem_of_dir_names dir d es f :
  f ∈ dir_names dir d es <->
  f ∈ subdirs dir d \/ ((f ∉ subdirs dir d) /\ is_Some (es !! f)).
Proof.
  unfold dir_names.
  rewrite elem_of_app, elem_of_elements, list_elem_of_filter, list_elem_of_fmap.
  split.
  - intros [?|[Hn ([f' i] & -> & Hfi)]]; [by left|right].
    apply elem_of_map_to_list in Hfi. eauto.
  - intros [?|[Hn [i Hi]]]; [by left|right]. split; [done|].
    exists (f, i). split; [done|]. by apply elem_of_map_to_list.
Qed.

(** Whatever the loop does, and however it ends, it only removes files of
    the directory whose names pass the test; it leaves the directories
    that are there, and the other directories as they are. *)
Lemma clean_loop_inv dir lang names es d out r d' out' :
  d_dirs d !! dir = Some es ->
  clean_loop dir lang names d out = (r, d', out') ->
  exists es',
    d_dirs d' !! dir = Some es' /\ es' ⊆ es /\
    (forall f, is_keops_lib lang f = false -> es' !! f = es !! f) /\
    (forall dir', dir' <> dir -> d_dirs d' !! dir' = d_dirs d !! dir') /\
    dom (d_dirs d') = dom (d_dirs d) /\
    d_next_ino d' = d_next_ino d /\ d_modules d' = d_modules d.
Proof.
  revert es d out.
  induction names as [|f names IH]; intros es d out Hdir; cbn [clean_loop].
  - intros [= <- <- <-]. exists es. by split_and!.
  - destruct (is_keops_lib lang f) eqn:Hlib; [|by apply IH].
    unfold os_remove, os_path_join. cbn [fst snd]. rewrite Hdir.
    destruct (decide (f ∈ subdirs dir d)) as [Hsub|Hsub].
    { intros [= <- <- <-]. exists es. by split_and!. }
    destruct (es !! f) as [i|] eqn:Hf.
    2:{ intros [= <- <- <-]. exists es. by split_and!. }
    intros Hrun.
    destruct (IH (delete f es) _ _ (lookup_insert_eq _ _ _) Hrun)
      as (es' & Hdir' & Hsub' & Hkeep & Hoth & Hdom & Hino & Hmod).
    exists es'. split_and!; try done.
    + etrans; [exact Hsub'|]. apply delete_subseteq.
    + intros g Hg. rewrite Hkeep by done. apply lookup_delete_ne.
      intros ->. congruence.
    + intros dir' Hne. rewrite Hoth by done. cbn. by rewrite lookup_insert_ne.
    + rewrite Hdom. cbn. apply dom_insert_lookup_L. eauto.
Qed.

(** When none of the names that pass the test is a sub-directory, the
    loop removes the files among them and no [os.remove] fails. *)
Lemma clean_loop_spec dir lang names es d out :
  NoDup names ->
  d_dirs d !! dir = Some es ->
  (forall f, f ∈ names -> is_keops_lib lang f = true ->
     (f ∉ subdirs dir d) /\ is_Some (es !! f)) ->
  exists d' es',
    clean_loop dir lang names d out
    = (Ok tt, d',
       out ++ (removed_line dir <$> filter (fun f => is_keops_lib lang f) names)) /\
    d_dirs d' !! dir = Some es' /\
    (forall f, es' !! f
               = if decide (f ∈ names /\ is_keops_lib lang f) then None else es !! f).
Proof.
  intros Hnd. revert es d out.
  induction Hnd as [|f names Hf Hnd IH]; intros es d out Hdir Hin; cbn [clean_loop].
  - exists d, es. rewrite filter_nil, fmap_nil, app_nil_r.
    split_and!; try done.
  - destruct (is_keops_lib lang f) eqn:Hlib.
    + destruct (Hin f) as [Hsub [i Hi]]; [by left|done|].
      unfold os_remove, os_path_join. cbn [fst snd]. rewrite Hdir.
      rewrite decide_False by done. rewrite Hi.
      destruct (IH (delete f es)
                  (mkDisk (<[dir := delete f es]> (d_dirs d)) (d_next_ino d) (d_modules d))
                  (out ++ [removed_line dir f]))
        as (d' & es' & Hrun & Hdir' & Hes').
      { cbn. apply lookup_insert_eq. }
      { intros g Hg Hglib. rewrite (subdirs_remove dir d es) by done.
        destruct (Hin g) as [Hgsub Hgf]; [by right|done|].
        split; [done|]. rewrite lookup_delete_ne; [done|]. intros ->. done. }
      exists d', es'. rewrite Hrun.
      rewrite filter_cons_True by (cbn; by rewrite Hlib).
      rewrite fmap_cons, <- app_assoc. split; [done|].
      split; [done|].
      intros g. rewrite Hes'. destruct (decide (g = f)) as [->|Hne].
      * rewrite decide_False by (intros [? _]; done).
        rewrite decide_True by (split; [by left|by rewrite Hlib]).
        apply lookup_delete_eq.
      * rewrite lookup_delete_ne by done.
        apply decide_ext. rewrite elem_of_cons. tauto.
    + destruct (IH es d out Hdir) as (d' & es' & Hrun & Hdir' & Hes').
      { intros g Hg. apply Hin. by right. }
      exists d', es'. rewrite Hrun.
      rewrite filter_cons_False by (cbn; rewrite Hlib; auto).
      split; [done|]. split; [done|].
      intros g. rewrite Hes'. apply decide_ext. rewrite elem_of_cons.
      split; [tauto|]. intros [[->|?] Hg]; [|done].
      by rewrite Hlib in Hg.
Qed.

(** When a name that passes the test is a sub-directory, the loop ends
    with the [IsADirectoryError] of [os.remove] on such a name. *)
Lemma clean_loop_raises dir lang names es d out :
  NoDup names ->
  d_dirs d !! dir = Some es ->
  (forall f, f ∈ names -> is_keops_lib lang f = true ->
     f ∈ subdirs dir d \/ is_Some (es !! f)) ->
  (exists n, n ∈ names /\ is_keops_lib lang n = true /\ n ∈ subdirs dir d) ->
  exists n d' out',
    n ∈ subdirs dir d /\ is_keops_lib lang n = true /\
    clean_loop dir lang names d out
    = (Raise (is_a_directory (path_str (os_path_join dir n))), d', out').
Proof.
  intros Hnd. revert es d out.
  induction Hnd as [|f names Hf Hnd IH]; intros es d out Hdir Hin (n & Hn & Hnlib & Hnsub).
  { by inversion Hn. }
  cbn [clean_loop]. destruct (is_keops_lib lang f) eqn:Hlib.
  - unfold os_remove, os_path_join. cbn [fst snd]. rewrite Hdir.
    destruct (decide (f ∈ subdirs dir d)) as [Hsub|Hsub]; [by eauto 10|].
    destruct (Hin f) as [?|[i Hi]]; [by left|done|done|]. rewrite Hi.
    assert (n ∈ names) as Hn'.
    { apply elem_of_cons in Hn as [->|?]; done. }
    destruct (IH (delete f es)
                (mkDisk (<[dir := delete f es]> (d_dirs d)) (d_next_ino d) (d_modules d))
                (out ++ [removed_line dir f]))
      as (n' & d' & out' & Hsub' & Hlib' & Hrun).
    { cbn. apply lookup_insert_eq. }
    { intros g Hg Hglib. rewrite (subdirs_remove dir d es) by done.
      destruct (Hin g) as [?|Hgf]; [by right|done|by left|right].
      rewrite lookup_delete_ne; [done|]. intros ->. done. }
    { exists n. by rewrite (subdirs_remove dir d es). }
    rewrite (subdirs_remove dir d es) in Hsub' by done. eauto 10.
  - apply (IH es); [done|intros g Hg; apply Hin; by right|].
    exists n. split_and!; [|done..].
    apply elem_of_cons in Hn as [->|?]; [congruence|done].
Qed.

Lemma clean_loop_nothing dir lang names d out :
  Forall (fun f => is_keops_lib lang f = false) names ->
  clean_loop dir lang names d out = (Ok tt, d, out).
Proof. induction 1 as [|f names Hf _ IH]; cbn; [done|]. by rewrite Hf. Qed.

Lemma clean_pykeops_unfold (bin_folder path : string) lang d es :
  lang ∈ ["numpy"; "torch"; ""] ->
  d_dirs d !! clean_dir bin_folder path = Some es ->
  clean_pykeops bin_folder path lang d
  = clean_loop (clean_dir bin_folder path) lang
      (dir_names (clean_dir bin_folder path) d es) d
      ["Cleaning " +:+ clean_dir bin_folder path].
Proof.
  intros Hlang Hdir. unfold clean_pykeops, os_listdir.
  rewrite decide_False by (intros H; by apply H). cbn zeta. by rewrite Hdir.
Qed.

(** A run with an accepted [lang] on a directory that is there and has no
    sub-directory whose name passes the test. *)
Lemma clean_pykeops_run (bin_folder path : string) lang d es :
  lang ∈ ["numpy"; "torch"; ""] ->
  d_dirs d !! clean_dir bin_folder path = Some es ->
  (forall n, n ∈ subdirs (clean_dir bin_folder path) d ->
     is_keops_lib lang n = false) ->
  exists d' es',
    clean_pykeops bin_folder path lang d
    = (Ok tt, d',
       ("Cleaning " +:+ clean_dir bin_folder path)
       :: (removed_line (clean_dir bin_folder path)
             <$> filter (fun f => is_keops_lib lang f)
                   (dir_names (clean_dir bin_folder path) d es))) /\
    d_dirs d' !! clean_dir bin_folder path = Some es' /\
    (forall f, es' !! f = if is_keops_lib lang f then None else es !! f) /\
    (forall dir', dir' <> clean_dir bin_folder path ->
       d_dirs d' !! dir' = d_dirs d !! dir') /\
    dom (d_dirs d') = dom (d_dirs d).
Proof.
  intros Hlang Hdir Hsub.
  rewrite (clean_pykeops_unfold bin_folder path lang d es Hlang Hdir).
  set (dir := clean_dir bin_folder path) in *.
  destruct (clean_loop_spec dir lang (dir_names dir d es) es d ["Cleaning " +:+ dir])
    as (d' & es' & Hrun & Hdir' & Hes').
  - apply NoDup_dir_names.
  - done.
  - intros f [Hf|[Hn Hf]]%elem_of_dir_names Hlib; [|done].
    rewrite (Hsub f Hf) in Hlib. done.
  - destruct (clean_loop_inv _ _ _ _ _ _ _ _ _ Hdir Hrun)
      as (es'' & Hdir'' & _ & _ & Hoth & Hdom & _).
    exists d', es'. rewrite Hrun. split_and!; try done.
    intros f. rewrite Hes'. destruct (is_keops_lib lang f) eqn:Hlib.
    + destruct (es !! f) as [i|] eqn:Hf; [|by case_decide].
      rewrite decide_True; [done|]. split; [|done].
      apply elem_of_dir_names. right. split; [|eauto].
      intros Hd. by rewrite (Hsub f Hd) in Hlib.
    + rewrite decide_False; [done|]. intros [_ H]. done.
Qed.

(** A run with an accepted [lang] on a directory that is there and has a
    sub-directory whose name passes the test. *)
Lemma clean_pykeops_subdir (bin_folder path : string) lang d es n :
  lang ∈ ["numpy"; "torch"; ""] ->
  d_dirs d !! clean_dir bin_folder path = Some es ->
  n ∈ subdirs (clean_dir bin_folder path) d -> is_keops_lib lang n = true ->
  exists n' d' out,
    n' ∈ subdirs (clean_dir bin_folder path) d /\ is_keops_lib lang n' = true /\
    clean_pykeops bin_folder path lang d
    = (Raise (is_a_directory
                (path_str (os_path_join (clean_dir bin_folder path) n'))),
       d', out).
Proof.
  intros Hlang Hdir Hn Hlib.
  rewrite (clean_pykeops_unfold bin_folder path lang d es Hlang Hdir).
  apply (clean_loop_raises _ _ _ es).
  - apply NoDup_dir_names.
  - done.
  - intros f [Hf|[_ Hf]]%elem_of_dir_names _; eauto.
  - exists n. split_and!; [|done..]. apply elem_of_dir_names. by left.
Qed.

(** Whether a sub-directory passes the test can be decided. *)
Lemma lib_subdir_dec lang dir d :
  (forall n, n ∈ subdirs dir d -> is_keops_lib lang n = false) \/
  (exists n, n ∈ subdirs dir d /\ is_keops_lib lang n = true).
Proof.
  destruct (decide (Forall (fun n => is_keops_lib lang n = false)
                      (elements (subdirs dir d)))) as [Hall|Hex].
  - left. intros n Hn%elem_of_elements.
    by apply (proj1 (Forall_forall _ _) Hall).
  - right. apply not_Forall_Exists in Hex; [|apply _].
    apply Exists_exists in Hex as (n & Hn%elem_of_elements & Hlib).
    exists n. split; [done|]. by apply not_false_iff_true.
Qed.

(** X6. With an accepted [lang] and a directory that is there (the bin
    folder when [path] is empty) and has no sub-directory whose name passes
    the test of the loop, [clean_pykeops] returns, and in the directory it
    leaves exactly the files that are not KeOps libraries of that [lang],
    unchanged; it touches no other directory, those inside the directory
    included; it prints the [Cleaning] line and one line for each file it
    removes. *)
Theorem clean_pykeops_removes_exactly (bin_folder path : string) lang d es :
  lang ∈ ["numpy"; "torch"; ""] ->
  d_dirs d !! clean_dir bin_folder path = Some es ->
  (forall n, n ∈ subdirs (clean_dir bin_folder path) d ->
     is_keops_lib lang n = false) ->
  exists d' es' removed,
    clean_pykeops bin_folder path lang d
    = (Ok tt, d',
       ("Cleaning " +:+ clean_dir bin_folder path)
       :: (removed_line (clean_dir bin_folder path) <$> removed)) /\
    d_dirs d' !! clean_dir bin_folder path = Some es' /\
    (forall f, es' !! f = if is_keops_lib lang f then None else es !! f) /\
    (forall dir', dir' <> clean_dir bin_folder path ->
       d_dirs d' !! dir' = d_dirs d !! dir') /\
    NoDup removed /\
    (forall f, f ∈ removed <-> is_Some (es !! f) /\ is_keops_lib lang f = true).
Proof.
  intros Hlang Hdir Hsub.
  destruct (clean_pykeops_run bin_folder path lang d es Hlang Hdir Hsub)
    as (d' & es' & Hrun & Hdir' & Hes' & Hoth & _).
  exists d', es',
    (filter (fun f => is_keops_lib lang f)
       (dir_names (clean_dir bin_folder path) d es)).
  split_and!; try done.
  - apply NoDup_filter, NoDup_dir_names.
  - intros f. rewrite list_elem_of_filter, elem_of_dir_names. split.
    + intros [Hlib%Is_true_true [Hd|[_ Hf]]]; [|done].
      by rewrite (Hsub f Hd) in Hlib.
    + intros [Hf Hlib]. split; [by apply Is_true_true|]. right.
      split; [|done]. intros Hd. by rewrite (Hsub f Hd) in Hlib.
Qed.

Lemma bin_disk_subdirs : elements (subdirs "bin" bin_disk) = ["old"].
Proof. vm_compute. reflexivity. Qed.

Lemma clean_pykeops_removes_exactly_witness :
  exists d' es',
    fst (clean_pykeops "bin" "" "numpy" bin_disk)
    = (Ok tt, d') /\
    d_dirs d' !! "bin" = Some es' /\
    es' !! "libKeOpsnumpyabc.so" = None /\
    es' !! "libKeOpstorchabc.so" = Some 2%nat /\
    es' !! "libKeOpsnumpy.txt" = Some 4%nat /\
    d_dirs d' !! "bin/old" = Some {[ "libKeOpsnumpyold.so" := 5%nat ]}.
Proof.
  destruct (clean_pykeops_removes_exactly "bin" "" "numpy" bin_disk
              {[ "libKeOpsnumpyabc.so" := 1%nat; "libKeOpstorchabc.so" := 2%nat;
                 "other.so" := 3%nat; "libKeOpsnumpy.txt" := 4%nat ]})
    as (d' & es' & removed & Hrun & Hdir & Hes & Hoth & _).
  - rewrite !elem_of_cons. auto.
  - vm_compute. reflexivity.
  - intros n Hn. rewrite <- elem_of_elements in Hn.
    change (n ∈ elements (subdirs "bin" bin_disk)) in Hn.
    rewrite bin_disk_subdirs in Hn.
    apply list_elem_of_singleton in Hn as ->. vm_compute. reflexivity.
  - exists d', es'. rewrite Hrun. split; [done|]. split; [exact Hdir|].
    rewrite !Hes. split_and!; [vm_compute; reflexivity..|].
    rewrite Hoth by done. vm_compute. reflexivity.
Defined.

(** X7. Cleaning twice is cleaning once: after a run that returned, a
    second run with the same arguments returns too, removes nothing and
    prints the [Cleaning] line only. *)
Theorem clean_pykeops_idempotent (bin_folder path : string) lang d d' out :
  clean_pykeops bin_folder path lang d = (Ok tt, d', out) ->
  clean_pykeops bin_folder path lang d'
  = (Ok tt, d', ["Cleaning " +:+ clean_dir bin_folder path]).
Proof.
  intros Hrun.
  assert (lang ∈ ["numpy"; "torch"; ""]) as Hlang.
  { destruct (decide (lang ∈ ["numpy"; "torch"; ""])) as [?|Hn]; [done|].
    unfold clean_pykeops in Hrun. by rewrite decide_True in Hrun. }
  destruct (d_dirs d !! clean_dir bin_folder path) as [es|] eqn:Hdir.
  2:{ unfold clean_pykeops, os_listdir in Hrun.
      rewrite decide_False in Hrun by (intros H; by apply H).
      cbn zeta in Hrun. by rewrite Hdir in Hrun. }
  destruct (lib_subdir_dec lang (clean_dir bin_folder path) d)
    as [Hsub|(n & Hn & Hlib)].
  2:{ destruct (clean_pykeops_subdir bin_folder path lang d es n Hlang Hdir Hn Hlib)
        as (n' & d1 & out1 & _ & _ & Hraise).
      rewrite Hrun in Hraise. done. }
  destruct (clean_pykeops_run bin_folder path lang d es Hlang Hdir Hsub)
    as (d1 & es' & Hrun' & Hdir' & Hes' & _ & Hdom).
  rewrite Hrun in Hrun'. injection Hrun' as -> _.
  rewrite (clean_pykeops_unfold bin_folder path lang d1 es' Hlang Hdir').
  apply clean_loop_nothing. rewrite Forall_forall.
  intros f [Hf|[_ [i Hf]]]%elem_of_dir_names.
  - apply Hsub. unfold subdirs in *. by rewrite <- Hdom.
  - rewrite Hes' in Hf. by destruct (is_keops_lib lang f).
Qed.

Lemma clean_pykeops_idempotent_witness :
  exists d' out,
    clean_pykeops "bin" "" "" bin_disk = (Ok tt, d', out) /\
    clean_pykeops "bin" "" "" d' = (Ok tt, d', ["Cleaning bin"]).
Proof.
  assert (exists d' out, clean_pykeops "bin" "" "" bin_disk = (Ok tt, d', out))
    as (d' & out & Hrun) by (eexists _, _; vm_compute; reflexivity).
  exists d', out. split; [exact Hrun|].
  exact (clean_pykeops_idempotent "bin" "" "" bin_disk d' out Hrun).
Defined.

Lemma prefix_app_l (sub x s : string) :
  String.prefix (sub +:+ x) s = true -> String.prefix sub s = true.
Proof.
  revert s. induction sub as [|c sub IH]; intros s; [by destruct s|].
  change (String c sub +:+ x) with (String c (sub +:+ x)).
  destruct s as [|c' s]; cbn; [done|].
  destruct (Ascii.ascii_dec c c'); [apply IH|done].
Qed.

Lemma occurs_app_l (sub x s : string) :
  occurs (sub +:+ x) s = true -> occurs sub s = true.
Proof.
  induction s as [|c s IH]; cbn [occurs].
  - rewrite !orb_false_r. apply prefix_app_l.
  - intros [H|H]%orb_prop.
    + by rewrite (prefix_app_l _ _ _ H).
    + rewrite (IH H). apply orb_true_r.
Qed.

Lemma count_from_occurs (sub s : string) :
  sub <> EmptyString -> bool_decide (0 < count_from sub 0 s)%nat = occurs sub s.
Proof.
  intros Hsub. induction s as [|c s IH].
  - cbn. destruct sub; [done|]. done.
  - cbn [count_from occurs]. destruct (String.prefix sub (String c s)) eqn:Hp.
    + cbn. apply bool_decide_eq_true_2. lia.
    + cbn. exact IH.
Qed.

Lemma is_keops_lib_any_lang lang f :
  is_keops_lib lang f = true -> is_keops_lib "" f = true.
Proof.
  unfold is_keops_lib, str_count. rewrite !decide_False by done.
  rewrite !count_from_occurs by done.
  intros [-> Hocc]%andb_prop. cbn [andb].
  change ("libKeOps" +:+ "") with "libKeOps". by apply (occurs_app_l _ lang).
Qed.

(** X8. The empty [lang] cleans for every [lang]. On the same directory
    both runs only remove files; when the run with the empty [lang]
    returns, so does the run with [lang], and every file the former
    leaves is also left by the latter; and the run with the empty [lang]
    returns when no sub-directory of the directory has a name that passes
    its test. *)
Theorem clean_pykeops_all_langs (bin_folder path : string) lang d es :
  lang ∈ ["numpy"; "torch"; ""] ->
  d_dirs d !! clean_dir bin_folder path = Some es ->
  exists r_lang d_lang out_lang es_lang r_all d_all out_all es_all,
    clean_pykeops bin_folder path lang d = (r_lang, d_lang, out_lang) /\
    clean_pykeops bin_folder path "" d = (r_all, d_all, out_all) /\
    d_dirs d_lang !! clean_dir bin_folder path = Some es_lang /\
    d_dirs d_all !! clean_dir bin_folder path = Some es_all /\
    es_lang ⊆ es /\ es_all ⊆ es /\
    (r_all = Ok tt -> r_lang = Ok tt /\ es_all ⊆ es_lang) /\
    ((forall n, n ∈ subdirs (clean_dir bin_folder path) d ->
        is_keops_lib "" n = false) -> r_all = Ok tt).
Proof.
  intros Hlang Hdir.
  assert (Hempty : "" ∈ ["numpy"; "torch"; ""]) by (rewrite !elem_of_cons; auto).
  destruct (clean_pykeops bin_folder path lang d) as [[r1 d1] out1] eqn:Hrun1.
  destruct (clean_pykeops bin_folder path "" d) as [[r0 d0] out0] eqn:Hrun0.
  pose proof Hrun1 as Hloop1. pose proof Hrun0 as Hloop0.
  rewrite (clean_pykeops_unfold bin_folder path lang d es Hlang Hdir) in Hloop1.
  rewrite (clean_pykeops_unfold bin_folder path "" d es Hempty Hdir) in Hloop0.
  destruct (clean_loop_inv _ _ _ _ _ _ _ _ _ Hdir Hloop1)
    as (es1 & Hdir1 & Hsub1 & _).
  destruct (clean_loop_inv _ _ _ _ _ _ _ _ _ Hdir Hloop0)
    as (es0 & Hdir0 & Hsub0 & _).
  exists r1, d1, out1, es1, r0, d0, out0, es0. split_and!; try done.
  - intros ->.
    destruct (lib_subdir_dec "" (clean_dir bin_folder path) d)
      as [Hsub|(n & Hn & Hlib)].
    2:{ destruct (clean_pykeops_subdir bin_folder path "" d es n Hempty Hdir Hn Hlib)
          as (n' & d' & out' & _ & _ & Hraise).
        rewrite Hrun0 in Hraise. done. }
    assert (forall n, n ∈ subdirs (clean_dir bin_folder path) d ->
              is_keops_lib lang n = false) as Hsubl.
    { intros n Hn. destruct (is_keops_lib lang n) eqn:Hl; [|done].
      rewrite <- (Hsub n Hn). symmetry. by apply (is_keops_lib_any_lang lang). }
    destruct (clean_pykeops_run bin_folder path lang d es Hlang Hdir Hsubl)
      as (d1' & es1' & Hrun1' & Hdir1' & Hes1 & _).
    destruct (clean_pykeops_run bin_folder path "" d es Hempty Hdir Hsub)
      as (d0' & es0' & Hrun0' & Hdir0' & Hes0 & _).
    rewrite Hrun1 in Hrun1'. injection Hrun1' as -> -> _.
    rewrite Hrun0 in Hrun0'. injection Hrun0' as -> _.
    assert (es1' = es1) as -> by congruence.
    assert (es0' = es0) as -> by congruence.
    split; [done|].
    apply map_subseteq_spec. intros f i. rewrite Hes0, Hes1.
    destruct (is_keops_lib "" f) eqn:H0; [done|].
    destruct (is_keops_lib lang f) eqn:H1; [|done].
    by rewrite (is_keops_lib_any_lang lang f H1) in H0.
  - intros Hsub.
    destruct (clean_pykeops_run bin_folder path "" d es Hempty Hdir Hsub)
      as (d0' & es0' & Hrun0' & _).
    rewrite Hrun0 in Hrun0'. by injection Hrun0' as -> _.
Qed.

Lemma clean_pykeops_all_langs_witness :
  exists d_lang d_all es_lang es_all,
    fst (clean_pykeops "bin" "" "torch" bin_disk) = (Ok tt, d_lang) /\
    fst (clean_pykeops "bin" "" "" bin_disk) = (Ok tt, d_all) /\
    d_dirs d_lang !! "bin" = Some es_lang /\
    d_dirs d_all !! "bin" = Some es_all /\
    es_all ⊆ es_lang.
Proof.
  destruct (clean_pykeops_all_langs "bin" "" "torch" bin_disk
              {[ "libKeOpsnumpyabc.so" := 1%nat; "libKeOpstorchabc.so" := 2%nat;
                 "other.so" := 3%nat; "libKeOpsnumpy.txt" := 4%nat ]})
    as (r1 & d1 & o1 & es1 & r0 & d0 & o0 & es0
        & H1 & H0 & Hd1 & Hd0 & _ & _ & Hret & Hall).
  - rewrite !elem_of_cons. auto.
  - vm_compute. reflexivity.
  - assert (r0 = Ok tt) as ->.
    { apply Hall. intros n Hn. rewrite <- elem_of_elements in Hn.
      change (n ∈ elements (subdirs "bin" bin_disk)) in Hn.
      rewrite bin_disk_subdirs in Hn.
      apply list_elem_of_singleton in Hn as ->. vm_compute. reflexivity. }
    destruct (Hret eq_refl) as [-> Hsub].
    exists d1, d0, es1, es0. rewrite H1, H0. by split_and!.
Defined.

(** X9. How [clean_pykeops] ends. A [lang] other than "numpy", "torch" and
    the empty string ("pytorch" among them) makes it raise [ValueError]
    before anything is printed or touched; an accepted [lang] on a
    directory that is not there makes [os.listdir] raise
    [FileNotFoundError] once the [Cleaning] line is printed, the disk
    untouched; on a directory none of whose sub-directories has a name
    that passes the test it returns: no [os.remove] of the loop fails;
    and when a sub-directory has such a name, [os.remove] raises
    [IsADirectoryError] on one. *)
Theorem clean_pykeops_outcome (bin_folder path : string) lang d :
  ((lang ∉ ["numpy"; "torch"; ""]) /\
   clean_pykeops bin_folder path lang d = (Raise (ValueError bad_lang_msg), d, [])) \/
  (lang ∈ ["numpy"; "torch"; ""] /\
   d_dirs d !! clean_dir bin_folder path = None /\
   clean_pykeops bin_folder path lang d
   = (Raise (no_such_file (clean_dir bin_folder path)), d,
      ["Cleaning " +:+ clean_dir bin_folder path])) \/
  (lang ∈ ["numpy"; "torch"; ""] /\
   is_Some (d_dirs d !! clean_dir bin_folder path) /\
   (forall n, n ∈ subdirs (clean_dir bin_folder path) d ->
      is_keops_lib lang n = false) /\
   exists d' out, clean_pykeops bin_folder path lang d = (Ok tt, d', out)) \/
  (lang ∈ ["numpy"; "torch"; ""] /\
   is_Some (d_dirs d !! clean_dir bin_folder path) /\
   exists n d' out,
     n ∈ subdirs (clean_dir bin_folder path) d /\ is_keops_lib lang n = true /\
     clean_pykeops bin_folder path lang d
     = (Raise (is_a_directory
                 (path_str (os_path_join (clean_dir bin_folder path) n))),
        d', out)).
Proof.
  destruct (decide (lang ∈ ["numpy"; "torch"; ""])) as [Hlang|Hlang].
  - right. destruct (d_dirs d !! clean_dir bin_folder path) as [es|] eqn:Hdir.
    + right.
      destruct (lib_subdir_dec lang (clean_dir bin_folder path) d)
        as [Hsub|(n & Hn & Hlib)].
      * left. split; [done|]. split; [eauto|]. split; [done|].
        destruct (clean_pykeops_run bin_folder path lang d es Hlang Hdir Hsub)
          as (d' & es' & Hrun & _). eauto.
      * right. split; [done|]. split; [eauto|].
        by apply (clean_pykeops_subdir bin_folder path lang d es n).
    + left. split; [done|]. split; [done|].
      unfold clean_pykeops, os_listdir.
      rewrite decide_False by (intros H; by apply H). cbn zeta. by rewrite Hdir.
  - left. split; [done|]. unfold clean_pykeops. by rewrite decide_True.
Qed.

(** The suffix tested is [so], without a dot, and the name of the library
    may stand anywhere in the file name. *)
Example clean_pykeops_loose_match :
  is_keops_lib "" "notes_on_libKeOps_also" = true /\
  is_keops_lib "numpy" "libKeOpsnumpy.so.bak" = false.
Proof. by vm_compute. Qed.

(** A sub-directory whose name passes the test stops the run. *)
Example clean_pykeops_on_subdirectory :
  exists d' out,
    clean_pykeops "bin" "" "" bin_disk_subdir
    = (Raise (is_a_directory "bin/libKeOps_so"), d', out).
Proof. eexists _, _. vm_compute. reflexivity. Qed.

End Clean.

(** ** Properties of the build cache *)

Section BuildCache.
Context {R : Type}.
Implicit Types (func : Action R) (self : Target) (w : World) (f : file).

Lemma os_makedirs_spec (bf : string) w :
  exists w0, os_makedirs bf w = Some (Ok tt, w0) /\
    is_Some (d_dirs (w_disk w0) !! bf) /\
    (is_Some (d_dirs (w_disk w) !! bf) -> w_disk w0 = w_disk w) /\
    lock_file (w_disk w0) bf = lock_file (w_disk w) bf /\
    d_next_ino (w_disk w0) = d_next_ino (w_disk w) /\
    d_modules (w_disk w0) = d_modules (w_disk w) /\
    w_locks w0 = w_locks w /\ w_next_fd w0 = w_next_fd w /\
    w_build_type w0 = w_build_type w /\
    w_trace w0 = w_trace w ++ [EMakedirs bf].
Proof.
  unfold os_makedirs, lock_file. eexists; split; [done|]. simpl.
  destruct (d_dirs (w_disk w) !! bf) eqn:E; simpl.
  - rewrite E. split_and!; eauto.
  - rewrite lookup_insert_eq. split_and!; eauto. by intros [? ?].
Qed.

Lemma open_w_spec (bf : string) w :
  is_Some (d_dirs (w_disk w) !! bf) ->
  exists w2,
    open_w (os_path_join bf lock_name) w
    = Some (Ok (mkFile (w_next_fd w) (lock_inode (w_disk w) bf)), w2) /\
    lock_file (w_disk w2) bf = Some (lock_inode (w_disk w) bf) /\
    d_modules (w_disk w2) = d_modules (w_disk w) /\
    w_locks w2 = w_locks w /\ w_next_fd w2 = S (w_next_fd w) /\
    w_build_type w2 = w_build_type w /\
    w_trace w2 = w_trace w ++ [EOpen (bf, lock_name)].
Proof.
  intros [es Hes]. unfold open_w, lock_inode, lock_file, os_path_join.
  cbn [fst snd]. rewrite Hes.
  destruct (es !! lock_name) as [i|] eqn:Ei; eexists; (split; [done|]); cbn.
  - rewrite Hes, Ei. split_and!; eauto.
  - rewrite !lookup_insert_eq. split_and!; eauto.
Qed.

Lemma flock_ex_spec f w :
  (flock f LOCK_EX w = None /\
     exists holder, w_locks w !! f_ino f = Some holder /\ holder <> f_fd f) \/
  (exists w3, flock f LOCK_EX w = Some (Ok tt, w3) /\
     w_disk w3 = w_disk w /\
     w_locks w3 = <[f_ino f := f_fd f]> (w_locks w) /\
     w_next_fd w3 = w_next_fd w /\ w_build_type w3 = w_build_type w /\
     w_trace w3 = w_trace w ++ [EFlock f LOCK_EX]).
Proof.
  unfold flock. destruct (w_locks w !! f_ino f) as [h|] eqn:Eh.
  - case_decide as Hh; [right|left; eauto].
    eexists; split; [done|]. cbn. split_and!; eauto.
    subst h. by rewrite insert_id.
  - right. eexists; split; [done|]. by cbn.
Qed.

(** The prefix either waits for ever or returns with the lock held. *)
Lemma acquire_spec self w :
  let bf := build_folder self in
  let f := mkFile (w_next_fd w) (lock_inode (w_disk w) bf) in
  (acquire self w = None /\
     exists holder, w_locks w !! f_ino f = Some holder /\ holder <> f_fd f) \/
  (exists w1, acquire self w = Some (Ok f, w1) /\
     lock_file (w_disk w1) bf = Some (f_ino f) /\
     d_modules (w_disk w1) = d_modules (w_disk w) /\
     w_locks w1 = <[f_ino f := f_fd f]> (w_locks w) /\
     w_next_fd w1 = S (w_next_fd w) /\ w_build_type w1 = w_build_type w /\
     w_trace w1 = w_trace w ++ [EMakedirs bf; EOpen (bf, lock_name);
                                EFlock f LOCK_EX]).
Proof.
  intros bf f.
  destruct (os_makedirs_spec bf w)
    as (w0 & Hmk & Hdir & _ & Hlf & Hino & Hmod & Hl & Hfd & Hbt & Htr).
  destruct (open_w_spec bf w0 Hdir)
    as (w2 & Hop & Hlf2 & Hmod2 & Hl2 & Hfd2 & Hbt2 & Htr2).
  assert (lock_inode (w_disk w0) bf = lock_inode (w_disk w) bf) as Hli.
  { unfold lock_inode. by rewrite Hlf, Hino. }
  rewrite Hfd, Hli in Hop. rewrite Hli in Hlf2. fold f in Hop.
  unfold acquire, bind. fold bf. rewrite Hmk, Hop.
  destruct (flock_ex_spec f w2) as [(Hb & h & Hh & Hne)|(w3 & Hfl & Hd3 & Hl3 & Hfd3 & Hbt3 & Htr3)].
  - left. rewrite Hb. split; [done|]. exists h. by rewrite <- Hl, <- Hl2.
  - right. exists w3. rewrite Hfl. unfold ret. split; [done|].
    rewrite Hd3, Hl3, Hfd3, Hbt3, Htr3, Hl2, Hfd2, Hbt2, Htr2, Hl, Hfd, Hbt, Htr.
    rewrite <- !app_assoc. split_and!; eauto. by rewrite Hmod2.
Qed.

Lemma acquire_inv self w f w1 :
  acquire self w = Some (Ok f, w1) ->
  f = mkFile (w_next_fd w) (lock_inode (w_disk w) (build_folder self)) /\
  is_Some (d_dirs (w_disk w1) !! build_folder self) /\
  lock_file (w_disk w1) (build_folder self) = Some (f_ino f) /\
  w_locks w1 !! f_ino f = Some (f_fd f) /\
  w_build_type w1 = w_build_type w /\
  w_trace w1 = w_trace w ++ [EMakedirs (build_folder self);
                             EOpen (build_folder self, lock_name);
                             EFlock f LOCK_EX].
Proof.
  intros Hacq.
  destruct (acquire_spec self w) as [[Hn _]|(w1' & Heq & Hlf & _ & Hl & _ & Hbt & Htr)];
    [congruence|].
  rewrite Hacq in Heq. injection Heq as -> ->.
  split_and!; eauto.
  - unfold lock_file in Hlf. destruct (d_dirs _ !! _); [eauto|done].
  - rewrite Hl. apply lookup_insert_eq.
Qed.

(** When no other description holds the lock of the lock file, the
    prefix returns. *)
Lemma acquire_free self w :
  w_locks w !! lock_inode (w_disk w) (build_folder self) = None ->
  exists w1,
    acquire self w
    = Some (Ok (mkFile (w_next_fd w) (lock_inode (w_disk w) (build_folder self))), w1).
Proof.
  intros Hfree.
  destruct (acquire_spec self w) as [(_ & h & Hh & _)|(w1 & Heq & _)]; [|eauto].
  cbn in Hh. congruence.
Qed.



Lemma clean_skip self w :
  ~ must_clean self w ->
  clean self w = Some (Ok tt, add_event (EFindSpec (dll_name self)) w).
Proof.
  unfold must_clean, clean, and_, bind, module_exists, get_build_type, ret.
  intros Hn. cbn. case_bool_decide as Hm; [|done]. cbn.
  case_bool_decide as Hb; [tauto|done].
Qed.

Lemma clean_delete self w entries :
  must_clean self w ->
  d_dirs (w_disk w) !! build_folder self = Some entries ->
  exists w',
    clean self w = Some (Ok tt, w') /\
    d_dirs (w_disk w')
    = filter (fun kv => in_tree (build_folder self) kv.1 = false)
             (d_dirs (w_disk w)) /\
    d_modules (w_disk w') = d_modules (w_disk w) /\
    w_locks w' = w_locks w /\
    w_trace w' = w_trace w ++ [EFindSpec (dll_name self);
                               ERmtree (build_folder self)].
Proof.
  unfold must_clean, clean, and_, bind, module_exists, get_build_type, ret,
    shutil_rmtree.
  intros [Hm Hb] Hdir. cbn. rewrite !bool_decide_eq_true_2 by done. cbn.
  rewrite Hdir. eexists; split; [done|]. cbn.
  rewrite <- app_assoc. by split_and!.
Qed.

Lemma clean_absent self w :
  must_clean self w ->
  d_dirs (w_disk w) !! build_folder self = None ->
  exists w',
    clean self w = Some (Raise (no_such_file (build_folder self)), w') /\
    w_disk w' = w_disk w /\ w_locks w' = w_locks w /\
    w_trace w' = w_trace w ++ [EFindSpec (dll_name self);
                               ERmtree (build_folder self)].
Proof.
  unfold must_clean, clean, and_, bind, module_exists, get_build_type, ret,
    shutil_rmtree.
  intros [Hm Hb] Hdir. cbn. rewrite !bool_decide_eq_true_2 by done. cbn.
  rewrite Hdir. eexists; split; [done|]. cbn.
  rewrite <- app_assoc. by split_and!.
Qed.

(** The wrapper, once the lock is held: the call, the two [__exit__]s,
    then the cleanup when the call returned. *)
Lemma wrapper_filelock_unfold func self w f w1 :
  acquire self w = Some (Ok f, w1) ->
  wrapper_filelock func self w =
    match func self (w_disk w1) with
    | None => None
    | Some (Raise e, d') => Some (Raise e, released self f d' w1)
    | Some (Ok v, d') => (clean self >> ret v) (released self f d' w1)
    end.
Proof.
  intros Hacq. destruct (acquire_inv _ _ _ _ Hacq) as (_ & _ & _ & Hheld & _).
  revert Hacq.
  unfold acquire, wrapper_filelock, clean, with_, try_finally, bind, ret,
    FileLock_init, cm_enter, cm_exit, FileLock_cm, file_cm, FileLock_enter,
    FileLock_exit, bind, ret, call. cbn [fd op].
  destruct (os_makedirs _ w) as [[[[]|?] w0]|]; [|done..].
  destruct (open_w _ w0) as [[[f0|?] w2]|]; [|done..].
  destruct (flock f0 LOCK_EX w2) as [[[[]|?] w3]|]; [|done..].
  intros [= -> ->].
  destruct (func self (w_disk w1)) as [[r d']|]; [|done].
  assert (flock f LOCK_UN (set_disk d' (add_event (ECall (dll_name self)) w1))
          = Some (Ok tt, add_event (EFlock f LOCK_UN)
              (set_locks (delete (f_ino f) (w_locks w1))
                 (set_disk d' (add_event (ECall (dll_name self)) w1))))) as ->.
  { unfold flock, drop_lock. cbn. by rewrite decide_True. }
  unfold file_close, drop_lock. cbn. rewrite decide_False
    by (rewrite lookup_delete_eq; done).
  unfold released, add_event, set_locks, set_disk; cbn.
  rewrite <- !app_assoc; cbn.
  destruct r as [v|e]; [|done].
  unfold and_, bind, module_exists, get_build_type, ret; cbn.
  rewrite <- ?app_assoc; cbn.
  destruct (bool_decide (dll_name self ∈ d_modules d')); cbn; [|done].
  destruct (bool_decide (w_build_type w1 = "Release")); cbn; [|done].
  by destruct (shutil_rmtree _ _) as [[[[]|?] ?]|].
Qed.

Lemma released_free self f d' w1 :
  w_locks (released self f d' w1) !! f_ino f = None.
Proof. unfold released; cbn. apply lookup_delete_eq. Qed.

Lemma run_alone_S (n : nat) func self (p : pc R) w :
  (forall r, p <> Finished r) ->
  run_alone (S n) func self p w
  = match step func self p w with
    | None => None
    | Some (w', p') => run_alone n func self p' w'
    end.
Proof. intros Hp. destruct p; try done. by destruct (Hp r). Qed.

Lemma run_alone_Finished (n : nat) func self (r : result R) w :
  run_alone n func self (Finished r) w = Some (r, w).
Proof. by destruct n. Qed.

(** A call running alone goes through the same system calls as the
    wrapper: the scheduler's view of a call agrees with the function. *)
Lemma run_alone_wrapper_filelock func self w :
  run_alone 8 func self AtMakedirs w = wrapper_filelock func self w.
Proof.
  unfold wrapper_filelock, with_, try_finally, and_, FileLock_init, cm_enter,
    cm_exit, FileLock_cm, file_cm, FileLock_enter, FileLock_exit, bind, ret.
  cbn beta iota zeta delta [fd op].
  rewrite run_alone_S by done. unfold step at 1, advance.
  destruct (os_makedirs _ _) as [[[[]|e] w0]|];
    rewrite ?run_alone_Finished; [|done..].
  rewrite run_alone_S by done. unfold step at 1, advance.
  destruct (open_w _ _) as [[[f|e] w1]|];
    rewrite ?run_alone_Finished; [|done..].
  rewrite run_alone_S by done. unfold step at 1, bind, FileLock_init, ret,
    cm_enter, FileLock_cm, FileLock_enter, bind, ret.
  cbn beta iota zeta delta [fd op].
  destruct (flock f LOCK_EX w1) as [[[[]|e] w2]|]; [| |done].
  2:{ rewrite run_alone_S by done. unfold step at 1, after_exit, cm_exit, file_cm.
      destruct (file_close f w1) as [[[[]|e'] w5]|];
        by rewrite ?run_alone_Finished. }
  rewrite run_alone_S by done. unfold step at 1.
  destruct (call func self w2) as [[r w3]|]; [|done].
  rewrite run_alone_S by done.
  unfold step at 1, after_exit, cm_exit, FileLock_cm, FileLock_exit.
  cbn beta iota zeta delta [fd op].
  destruct (flock f LOCK_UN w3) as [[[[]|e'] w4]|]; [| |done].
  2:{ rewrite run_alone_S by done. unfold step at 1, after_exit, cm_exit, file_cm.
      destruct (file_close f w4) as [[[[]|e''] w5]|];
        by rewrite ?run_alone_Finished. }
  rewrite run_alone_S by done. unfold step at 1, after_exit, cm_exit, file_cm.
  destruct (file_close f w4) as [[[[]|e'] w5]|];
    rewrite ?run_alone_Finished; [| |done].
  2:{ by destruct r. }
  destruct r as [v|e]; rewrite ?run_alone_Finished; [|done].
  rewrite run_alone_S by done. unfold step at 1, advance, and_, bind, ret.
  destruct (module_exists _ w5) as [[[[]|e] w6]|];
    rewrite ?run_alone_Finished; [| |done..].
  - destruct (get_build_type w6) as [[[b|e] w7]|];
      rewrite ?run_alone_Finished; [|done..].
    destruct (bool_decide _); rewrite ?run_alone_Finished; [|done].
    rewrite run_alone_S by done. unfold step at 1, advance.
    by destruct (shutil_rmtree _ _) as [[[[]|e] w8]|];
      rewrite ?run_alone_Finished.
  - by rewrite ?run_alone_Finished.
Qed.

End BuildCache.

(** C2. When the decorated function raises, the wrapper leaves both [with]
    blocks: the lock is released (nobody holds the lock of the lock file, a
    new [flock] on it returns, and so does the prefix of a later call when
    the lock file is still in place), the same exception reaches the
    caller, and nothing is cleaned: the disk is the one the function left
    and [shutil.rmtree] is not called. *)
Theorem wrapper_filelock_action_raises {R} (func : Action R) (self : Target)
    (w w1 : World) (f : file) (e : exception) (d' : Disk) :
  acquire self w = Some (Ok f, w1) ->
  func self (w_disk w1) = Some (Raise e, d') ->
  exists w',
    wrapper_filelock func self w = Some (Raise e, w') /\
    w_locks w' !! f_ino f = None /\
    (forall f', f_ino f' = f_ino f -> is_Some (flock f' LOCK_EX w')) /\
    (lock_file d' (build_folder self) = Some (f_ino f) ->
       exists f2 w2, acquire self w' = Some (Ok f2, w2)) /\
    w_disk w' = d' /\
    w_trace w' = w_trace w1 ++ [ECall (dll_name self); EFlock f LOCK_UN; EClose f].
Proof.
  intros Hacq Hfunc. exists (released self f d' w1).
  rewrite (wrapper_filelock_unfold func self w f w1 Hacq), Hfunc.
  pose proof (released_free self f d' w1) as Hfree.
  split_and!; try done.
  - intros f' Hino. unfold flock. rewrite Hino, Hfree. eauto.
  - intros Hlf.
    destruct (acquire_free self (released self f d' w1)) as [w2 Hw2]; [|eauto].
    unfold lock_inode. cbn [released w_disk]. by rewrite Hlf.
Qed.

Lemma wrapper_filelock_action_raises_witness :
  exists f w1 w',
    acquire keops_target release_world = Some (Ok f, w1) /\
    compile_fails keops_target (w_disk w1)
    = Some (Raise (PyExc "CalledProcessError"
                         "cmake returned non-zero exit status 1"), w_disk w1) /\
    wrapper_filelock compile_fails keops_target release_world
    = Some (Raise (PyExc "CalledProcessError"
                         "cmake returned non-zero exit status 1"), w') /\
    w_locks w' !! f_ino f = None /\
    is_Some (d_dirs (w_disk w') !! "build").
Proof.
  eexists _, _.
  assert (acquire keops_target release_world = Some (Ok _, _)) as Hacq
    by (vm_compute; reflexivity).
  destruct (wrapper_filelock_action_raises compile_fails keops_target
              release_world _ _ _ _ Hacq eq_refl)
    as (w' & Hw & Hlock & _ & _ & Hdisk & _).
  exists w'. split_and!; [exact Hacq|reflexivity|exact Hw|exact Hlock|].
  rewrite Hdisk. vm_compute. eauto.
Defined.

(** An event of one kind does not occur in a literal list of events of
    other kinds. *)
Ltac absent_event :=
  let H := fresh in
  intros ? H; cbn [app] in H; rewrite ?elem_of_cons, elem_of_nil in H;
  repeat (destruct H as [H|H]; [discriminate H|]); exact H.

(** A call that runs alone, gets the lock and whose decorated function
    ends: the build folder is ensured first ([os.makedirs] never fails on
    a folder that is there already and then leaves the disk alone), the
    function is called once the prefix has taken the lock, it is called
    exactly once (one [ECall] among the calls logged by the wrapper,
    between the two [flock]s), and a wrapper that returns returns the value
    of the function. *)
Theorem wrapper_filelock_calls_once {R} (func : Action R) (self : Target)
    (w w1 : World) (f : file) (r : result R) (d' : Disk) :
  acquire self w = Some (Ok f, w1) ->
  func self (w_disk w1) = Some (r, d') ->
  (exists w0, os_makedirs (build_folder self) w = Some (Ok tt, w0) /\
     is_Some (d_dirs (w_disk w0) !! build_folder self) /\
     (is_Some (d_dirs (w_disk w) !! build_folder self) -> w_disk w0 = w_disk w)) /\
  is_Some (d_dirs (w_disk w1) !! build_folder self) /\
  w_locks w1 !! f_ino f = Some (f_fd f) /\
  exists out w' rest,
    wrapper_filelock func self w = Some (out, w') /\
    w_trace w' = w_trace w ++
      [EMakedirs (build_folder self); EOpen (build_folder self, lock_name);
       EFlock f LOCK_EX; ECall (dll_name self); EFlock f LOCK_UN; EClose f]
      ++ rest /\
    (forall dll, ECall dll ∉ rest) /\
    (forall v, out = Ok v -> r = Ok v) /\
    (forall v, r = Ok v ->
       is_Some (d_dirs d' !! build_folder self) -> out = Ok v).
Proof.
  intros Hacq Hfunc.
  destruct (acquire_inv self w f w1 Hacq) as (_ & Hdir & _ & Hheld & _ & Htr).
  split.
  { destruct (os_makedirs_spec (build_folder self) w) as (w0 & ? & ? & ? & _).
    eauto. }
  split; [done|]. split; [done|].
  rewrite (wrapper_filelock_unfold func self w f w1 Hacq), Hfunc.
  set (w2 := released self f d' w1).
  assert (w_trace w2 = w_trace w ++
      [EMakedirs (build_folder self); EOpen (build_folder self, lock_name);
       EFlock f LOCK_EX; ECall (dll_name self); EFlock f LOCK_UN; EClose f])
    as Htr2.
  { unfold w2, released; cbn. rewrite Htr, <- app_assoc. done. }
  destruct r as [v|e].
  - unfold bind, ret.
    destruct (decide (must_clean self w2)) as [Hc|Hc].
    + destruct (d_dirs (w_disk w2) !! build_folder self) as [es|] eqn:Edir.
      * destruct (clean_delete self w2 es Hc Edir) as (w' & -> & _ & _ & _ & Htr').
        eexists _, w', _. split; [done|]. rewrite Htr', Htr2, <- app_assoc.
        split; [done|]. split_and!.
        -- absent_event.
        -- done.
        -- by intros v' [= ->].
      * destruct (clean_absent self w2 Hc Edir) as (w' & -> & _ & _ & Htr').
        eexists _, w', _. split; [done|]. rewrite Htr', Htr2, <- app_assoc.
        split; [done|]. split_and!.
        -- absent_event.
        -- done.
        -- intros v' _ [es Hes]. unfold w2, released in Edir; cbn in Edir.
           congruence.
    + rewrite (clean_skip self w2 Hc).
      eexists _, _, [EFindSpec (dll_name self)]. split; [done|].
      cbn [add_event w_trace]. rewrite Htr2, <- app_assoc. split; [done|].
      split_and!.
      * absent_event.
      * done.
      * by intros v' [= ->].
  - eexists _, w2, []. split; [done|]. rewrite app_nil_r. split; [done|].
    split_and!; [intros dll; apply not_elem_of_nil|done..].
Qed.

Lemma wrapper_filelock_calls_once_witness :
  exists f w1 d' w',
    acquire keops_target release_world = Some (Ok f, w1) /\
    compile_ok keops_target (w_disk w1) = Some (Ok 42, d') /\
    w_locks w1 !! f_ino f = Some (f_fd f) /\
    wrapper_filelock compile_ok keops_target release_world = Some (Ok 42, w').
Proof.
  destruct (acquire_free keops_target release_world) as [w1 Hacq];
    [vm_compute; reflexivity|].
  destruct (acquire_inv _ _ _ _ Hacq) as (_ & [es Hes] & _).
  destruct (wrapper_filelock_calls_once compile_ok keops_target release_world
              w1 _ _ _ Hacq eq_refl)
    as (_ & _ & Hheld & out & w' & rest & Hw & _ & _ & _ & Hout).
  eexists _, w1, _, w'. split_and!; [exact Hacq|reflexivity|exact Hheld|].
  rewrite Hw. do 2 f_equal. apply Hout; [done|].
  cbn [compile_ok d_dirs build_folder keops_target] in *.
  rewrite lookup_alter_eq, Hes. eauto.
Defined.

(** A call that waits for the lock for ever does not return. *)
Lemma wrapper_filelock_blocked {R} (func : Action R) (self : Target) (w : World) :
  acquire self w = None -> wrapper_filelock func self w = None.
Proof.
  unfold acquire, wrapper_filelock, with_, try_finally, bind, ret,
    FileLock_init, cm_enter, cm_exit, FileLock_cm, file_cm, FileLock_enter,
    FileLock_exit, bind, ret. cbn beta iota zeta delta [fd op].
  destruct (os_makedirs _ w) as [[[[]|?] w0]|]; [|done..].
  destruct (open_w _ w0) as [[[f0|?] w2]|]; [|done..].
  by destruct (flock f0 LOCK_EX w2) as [[[[]|?] w3]|].
Qed.



(** In another build type the same call leaves the folder with the lock
    file and the shared object. *)
Example wrapper_filelock_debug_keeps_folder :
  exists w',
    wrapper_filelock compile_ok keops_target debug_world = Some (Ok 42, w') /\
    d_dirs (w_disk w') !! "build"
    = Some {[ lock_name := 0%nat; "libKeOps.so" := 1%nat ]}.
Proof. eexists. split; vm_compute; reflexivity. Qed.

(** The cleanup of a call whose build folder is gone: the caller gets
    [FileNotFoundError] in place of the value the decorated function
    returned. *)
Lemma wrapper_filelock_cleanup_absent {R} (func : Action R) (self : Target)
    (w w1 : World) (f : file) (v : R) (d' : Disk) :
  acquire self w = Some (Ok f, w1) ->
  func self (w_disk w1) = Some (Ok v, d') ->
  dll_name self ∈ d_modules d' -> w_build_type w = "Release" ->
  d_dirs d' !! build_folder self = None ->
  exists w', wrapper_filelock func self w
             = Some (Raise (no_such_file (build_folder self)), w').
Proof.
  intros Hacq Hfunc Hmod Hbt Hdir.
  destruct (acquire_inv self w f w1 Hacq) as (_ & _ & _ & _ & Hbt1 & _).
  rewrite (wrapper_filelock_unfold func self w f w1 Hacq), Hfunc.
  destruct (clean_absent self (released self f d' w1)) as (w' & Hcl & _).
  - split; cbn; [done|congruence].
  - done.
  - exists w'. unfold bind. by rewrite Hcl.
Qed.

(** C3. Two Release calls for the same folder. The first goes as far as
    the cleanup test, which tells it to delete; the second runs from start
    to end and deletes the folder; the first then calls [shutil.rmtree] on
    a folder that is gone: it ends with [FileNotFoundError], and the value
    42 its decorated function returned is lost. *)
Theorem cleanup_race_raises :
  let calls := [start compile_ok keops_target; start compile_ok keops_target] in
  let before := [0; 0; 0; 0; 0; 0; 0; 1; 1; 1; 1; 1; 1; 1; 1]%nat in
  after before (release_world, calls) (fun sys =>
    c_pc <$> sys.2 = [AtRmtree 42; Finished (Ok 42)] /\
    d_modules (w_disk sys.1) = {[ "libKeOps" ]} /\
    w_build_type sys.1 = "Release" /\
    d_dirs (w_disk sys.1) !! "build" = None) /\
  after (before ++ [0%nat]) (release_world, calls) (fun sys =>
    c_pc <$> sys.2
    = [Finished (Raise (FileNotFoundError
                          "[Errno 2] No such file or directory: 'build'"));
       Finished (Ok 42)]).
Proof. vm_compute. by split_and!. Qed.

(** C7. Three Release calls for the same folder. Call 0 compiles, leaves
    the lock and decides to delete the folder; call 1 opens the lock file
    and gets the lock; call 0 deletes the folder, lock file included; call
    2 creates the folder and a new lock file, and gets the lock of that
    file. Calls 1 and 2 are then both about to run the decorated function
    for the same build folder, each holding an exclusive lock, on two
    different inodes. *)
Theorem serialization_broken_by_cleanup :
  after [0; 0; 0; 0; 0; 0; 0; 1; 1; 1; 0; 2; 2; 2]%nat
        (release_world, [start compile_ok keops_target;
                         start compile_ok keops_target;
                         start compile_ok keops_target])
    (fun sys =>
       c_pc <$> sys.2
       = [Finished (Ok 42); AtCall (mkFile 1 0); AtCall (mkFile 2 2)] /\
       w_locks sys.1 = {[ 0%nat := 1%nat; 2%nat := 2%nat ]} /\
       overlap 1 2 sys.2).
Proof. vm_compute. split_and!; try done. Qed.

(** Calls for two different build folders can hold their locks at the
    same time. *)
Example different_folders_concurrent :
  after [0; 0; 0; 1; 1; 1]%nat
        (release_world, [start compile_ok (mkTarget "build_a" "libA");
                         start compile_ok (mkTarget "build_b" "libB")])
    (fun sys =>
       c_pc <$> sys.2 = [AtCall (mkFile 0 0); AtCall (mkFile 1 1)] /\
       w_locks sys.1 = {[ 0%nat := 0%nat; 1%nat := 1%nat ]}).
Proof. vm_compute. by split_and!. Qed.

(** Without the cleanup a second call for the same folder cannot get the
    lock while the first holds it: the scheduler cannot let it move. *)
Example same_folder_blocks :
  after [0; 0; 0; 1; 1]%nat
        (debug_world, [start compile_ok keops_target;
                       start compile_ok keops_target])
    (fun sys => sched 1 sys = None).
Proof. vm_compute. done. Qed.

(** C6. Two Release calls for the same folder. Call 0 compiles and goes
    as far as the cleanup test, which tells it to delete; call 1 runs
    [os.makedirs], which finds the folder in place; call 0 deletes the
    folder; call 1 then calls [open] on the lock file of a folder that is
    gone. Call 1 ends with [FileNotFoundError]: its decorated function was
    never called (one call is logged for the two calls of the wrapper) and
    its caller gets no result, although no compilation failed. *)
Theorem cleanup_between_makedirs_and_open :
  let calls := [start compile_ok keops_target; start compile_ok keops_target] in
  let before := [0; 0; 0; 0; 0; 0; 0; 1]%nat in
  after before (release_world, calls) (fun sys =>
    c_pc <$> sys.2 = [AtRmtree 42; AtOpen] /\
    d_dirs (w_disk sys.1) !! "build"
    = Some {[ lock_name := 0%nat; "libKeOps.so" := 1%nat ]}) /\
  after (before ++ [0; 1]%nat) (release_world, calls) (fun sys =>
    c_pc <$> sys.2
    = [Finished (Ok 42);
       Finished (Raise (FileNotFoundError
         "[Errno 2] No such file or directory: 'build/pykeops_build2.lock'"))] /\
    count_occ event_eq_dec (w_trace sys.1) (ECall "libKeOps") = 1%nat /\
    d_dirs (w_disk sys.1) !! "build" = None).
Proof. vm_compute. by split_and!. Qed.

(** ** More on FileLock and the wrapper *)

Section Locking.

Context {A : Type}.
Implicit Types (f : file) (w : World) (body : FileLock -> M A).

(** X10. [with FileLock(f): body], for any body: when the statement ends,
    [flock] had returned, the outcome is the outcome of the body (a value
    or the very exception the body raised), and [f] does not hold the lock
    any more, also when it held it already on entry: nested uses on one
    file object are not counted. *)
Theorem FileLock_with_releases f body w (r : result A) w' :
  with_ (FileLock_init f LOCK_EX) body w = Some (r, w') ->
  exists w1 w2,
    flock f LOCK_EX w = Some (Ok tt, w1) /\
    w_locks w1 !! f_ino f = Some (f_fd f) /\
    body (mkFileLock f LOCK_EX) w1 = Some (r, w2) /\
    w_locks w' = drop_lock f (w_locks w2) /\
    w_disk w' = w_disk w2 /\
    w_locks w' !! f_ino f <> Some (f_fd f).
Proof.
  unfold with_, FileLock_init, cm_enter, cm_exit, FileLock_cm, FileLock_enter,
    FileLock_exit, try_finally, bind, ret. cbn [fd op].
  destruct (flock_ex_spec f w) as [[-> _]|(w1 & -> & _ & Hl1 & _)]; [done|].
  destruct (body _ w1) as [[r' w2]|] eqn:Hbody; [|done].
  unfold flock. intros [= <- <-]. exists w1, w2. cbn.
  split_and!; try done.
  - rewrite Hl1. apply lookup_insert_eq.
  - unfold drop_lock. case_decide as Hown; [|done].
    rewrite lookup_delete_eq. done.
Qed.



Lemma FileLock_with_held f body w holder :
  w_locks w !! f_ino f = Some holder -> holder <> f_fd f ->
  with_ (FileLock_init f LOCK_EX) body w = None.
Proof.
  intros Hh Hne.
  unfold with_, FileLock_init, cm_enter, FileLock_cm, FileLock_enter, bind, ret.
  cbn [fd op]. unfold flock. rewrite Hh. by rewrite decide_False.
Qed.

Lemma FileLock_with_body_never_returns f body w w1 :
  flock f LOCK_EX w = Some (Ok tt, w1) ->
  body (mkFileLock f LOCK_EX) w1 = None ->
  with_ (FileLock_init f LOCK_EX) body w = None.
Proof.
  intros Hfl Hbody.
  unfold with_, FileLock_init, cm_enter, FileLock_cm, FileLock_enter,
    try_finally, bind, ret.
  cbn [fd op]. by rewrite Hfl, Hbody.
Qed.

(** X11. [with FileLock(f): body] never returns exactly when another open
    file description holds the lock of the file on entry, in which case
    the body is not run at all, or when the body itself never returns. *)
Theorem FileLock_with_blocks f body w :
  with_ (FileLock_init f LOCK_EX) body w = None <->
  (exists holder, w_locks w !! f_ino f = Some holder /\ holder <> f_fd f) \/
  (exists w1, flock f LOCK_EX w = Some (Ok tt, w1) /\
              body (mkFileLock f LOCK_EX) w1 = None).
Proof.
  split.
  - unfold with_, FileLock_init, cm_enter, cm_exit, FileLock_cm,
      FileLock_enter, FileLock_exit, try_finally, bind, ret. cbn [fd op].
    destruct (flock_ex_spec f w) as [[Hb Hheld]|(w1 & Hfl & _)]; [by left|].
    rewrite Hfl. destruct (body _ w1) as [[r' w2]|] eqn:Hbody; [done|].
    intros _. right. eauto.
  - intros [(h & Hh & Hne)|(w1 & Hfl & Hbody)].
    + by eapply FileLock_with_held.
    + by eapply FileLock_with_body_never_returns.
Qed.

Lemma with_open_never_returns (p : path) (k : file -> M A) w f w2 :
  open_w p w = Some (Ok f, w2) -> k f w2 = None ->
  with_ (open_w p) k w = None.
Proof.
  intros Hop Hk.
  unfold with_, bind, cm_enter, file_cm, ret, try_finally.
  by rewrite Hop, Hk.
Qed.

(** X12. Locking the lock file of a folder through a second open file
    description while the first holds the lock never returns, whatever the
    body: the wrapper cannot be entered again, from inside its critical
    section, for the same build folder. *)
Theorem FileLock_nested_never_returns (bf : string) body w :
  is_Some (d_dirs (w_disk w) !! bf) ->
  with_ (open_w (os_path_join bf lock_name)) (fun f1 =>
    with_ (FileLock_init f1 LOCK_EX) (fun _ : FileLock =>
      with_ (open_w (os_path_join bf lock_name)) (fun f2 =>
        with_ (FileLock_init f2 LOCK_EX) body))) w = None.
Proof.
  intros Hdir.
  destruct (open_w_spec bf w Hdir) as (w2 & Hop & Hlf2 & _ & Hl2 & Hfd2 & _).
  set (f1 := mkFile (w_next_fd w) (lock_inode (w_disk w) bf)) in *.
  apply (with_open_never_returns _ _ _ f1 w2 Hop).
  destruct (flock_ex_spec f1 w2)
    as [[_ (h & Hh & Hne)]|(w3 & Hfl & Hd3 & Hl3 & Hfd3 & _)];
    [by eapply FileLock_with_held|].
  apply (FileLock_with_body_never_returns _ _ _ w3 Hfl).
  assert (is_Some (d_dirs (w_disk w3) !! bf)) as Hdir3.
  { rewrite Hd3. unfold lock_file in Hlf2.
    destruct (d_dirs (w_disk w2) !! bf); [eauto|done]. }
  destruct (open_w_spec bf w3 Hdir3) as (w4 & Hop4 & _ & _ & Hl4 & _).
  apply (with_open_never_returns _ _ _ _ w4 Hop4).
  apply (FileLock_with_held _ _ _ (f_fd f1)); cbn [f_ino f_fd].
  - unfold lock_inode at 1. rewrite Hd3, Hlf2. cbn [default from_option].
    rewrite Hl4, Hl3. unfold f1 at 1. cbn [f_ino]. by rewrite lookup_insert_eq.
  - rewrite Hfd3, Hfd2. cbn. lia.
Qed.

End Locking.

Lemma FileLock_with_releases_witness :
  exists w',
    with_ (FileLock_init (mkFile 0 0) LOCK_EX)
          (fun _ => (ret 5 : M Z)) release_world = Some (Ok 5, w') /\
    w_locks w' !! 0%nat <> Some 0%nat.
Proof.
  assert (exists w', with_ (FileLock_init (mkFile 0 0) LOCK_EX)
            (fun _ => (ret 5 : M Z)) release_world = Some (Ok 5, w'))
    as [w' Hrun] by (eexists; vm_compute; reflexivity).
  exists w'. split; [exact Hrun|].
  destruct (FileLock_with_releases (A:=Z) (mkFile 0 0) (fun _ => ret 5)
              release_world (Ok 5) w' Hrun)
    as (w1 & w2 & _ & _ & _ & _ & _ & Hfree).
  exact Hfree.
Defined.

Lemma FileLock_nested_never_returns_witness :
  with_ (open_w (os_path_join "build" lock_name)) (fun f1 =>
    with_ (FileLock_init f1 LOCK_EX) (fun _ : FileLock =>
      with_ (open_w (os_path_join "build" lock_name)) (fun f2 =>
        with_ (FileLock_init f2 LOCK_EX)
              (fun _ => (ret 5 : M Z))))) built_world = None.
Proof.
  apply (FileLock_nested_never_returns (A:=Z) "build" (fun _ => ret 5)
           built_world).
  vm_compute. eauto.
Defined.

Section WrapperOutcome.

Context {R : Type}.
Implicit Types (func : Action R) (self : Target) (w : World) (f : file).

Lemma acquire_blocked_iff self w :
  acquire self w = None <->
  exists holder,
    w_locks w !! lock_inode (w_disk w) (build_folder self) = Some holder /\
    holder <> w_next_fd w.
Proof.
  destruct (acquire_spec self w)
    as [[Hb Hheld]|(w1 & Hacq & _ & _ & Hl & _)]; cbn [f_ino f_fd] in *.
  - by rewrite Hb.
  - rewrite Hacq. split; [done|]. intros (h & Hh & Hne). exfalso.
    revert Hacq. unfold acquire, bind.
    destruct (os_makedirs_spec (build_folder self) w)
      as (w0 & -> & Hdir & _ & Hlf & Hino & _ & Hl0 & Hfd0 & _).
    destruct (open_w_spec (build_folder self) w0 Hdir)
      as (w2 & -> & _ & _ & Hl2 & _).
    unfold flock. cbn [f_ino f_fd]. unfold lock_inode at 1.
    rewrite Hlf, Hino. fold (lock_inode (w_disk w) (build_folder self)).
    rewrite Hl2, Hl0, Hh, Hfd0. by rewrite decide_False.
Qed.

Lemma clean_returns self w : exists r w', clean self w = Some (r, w').
Proof.
  destruct (decide (must_clean self w)) as [Hc|Hc].
  - destruct (d_dirs (w_disk w) !! build_folder self) as [es|] eqn:Edir.
    + destruct (clean_delete self w es Hc Edir) as (w' & -> & _). eauto.
    + destruct (clean_absent self w Hc Edir) as (w' & -> & _). eauto.
  - rewrite (clean_skip self w Hc). eauto.
Qed.

Lemma clean_locks self w r w' :
  clean self w = Some (r, w') -> w_locks w' = w_locks w.
Proof.
  destruct (decide (must_clean self w)) as [Hc|Hc].
  - destruct (d_dirs (w_disk w) !! build_folder self) as [es|] eqn:Edir.
    + destruct (clean_delete self w es Hc Edir) as (w2 & -> & _ & _ & Hl & _).
      by intros [= _ <-].
    + destruct (clean_absent self w Hc Edir) as (w2 & -> & _ & Hl & _).
      by intros [= _ <-].
  - rewrite (clean_skip self w Hc). by intros [= _ <-].
Qed.

(** X13. The wrapper fails to return in two cases only: another open file
    description holds the lock of the lock file when the call starts, or
    the decorated function, called with the lock held, never returns. In
    every other world the call ends, with a value or with an exception. *)
Theorem wrapper_filelock_never_returns_iff func self w :
  wrapper_filelock func self w = None <->
  (exists holder,
     w_locks w !! lock_inode (w_disk w) (build_folder self) = Some holder /\
     holder <> w_next_fd w) \/
  (exists f w1, acquire self w = Some (Ok f, w1) /\
                func self (w_disk w1) = None).
Proof.
  rewrite <- acquire_blocked_iff.
  destruct (acquire_spec self w) as [[Hb _]|(w1 & Hacq & _)].
  - rewrite (wrapper_filelock_blocked func self w Hb). split; [by left|done].
  - rewrite (wrapper_filelock_unfold func self w _ w1 Hacq).
    destruct (func self (w_disk w1)) as [[[v|e] d']|] eqn:Hfunc.
    + unfold bind, ret.
      destruct (clean_returns self (released self
                  (mkFile (w_next_fd w) (lock_inode (w_disk w) (build_folder self)))
                  d' w1)) as (r & w' & ->).
      split; [by destruct r as [[]|]|].
      intros [Hb|(f' & w1' & Hacq' & Hn)]; [congruence|].
      rewrite Hacq in Hacq'. injection Hacq' as <- <-. congruence.
    + split; [done|].
      intros [Hb|(f' & w1' & Hacq' & Hn)]; [congruence|].
      rewrite Hacq in Hacq'. injection Hacq' as <- <-. congruence.
    + split; [|done]. intros _. right. eauto.
Qed.

(** X14. A call that returns, with a value or with any exception (that of
    the decorated function, or the one of [shutil.rmtree]), leaves no lock
    on the lock file it used and touches no other lock. *)
Theorem wrapper_filelock_restores_locks func self w (r : result R) w' :
  wrapper_filelock func self w = Some (r, w') ->
  w_locks w' = delete (lock_inode (w_disk w) (build_folder self)) (w_locks w).
Proof.
  destruct (acquire_spec self w)
    as [[Hb _]|(w1 & Hacq & _ & _ & Hl & _)]; cbn [f_ino f_fd] in *.
  { by rewrite (wrapper_filelock_blocked func self w Hb). }
  rewrite (wrapper_filelock_unfold func self w _ w1 Hacq).
  assert (forall d', w_locks (released self
            (mkFile (w_next_fd w) (lock_inode (w_disk w) (build_folder self)))
            d' w1)
          = delete (lock_inode (w_disk w) (build_folder self)) (w_locks w))
    as Hrel.
  { intros d'. unfold released; cbn. rewrite Hl. apply delete_insert_eq. }
  destruct (func self (w_disk w1)) as [[[v|e] d']|]; [| |done].
  - unfold bind, ret.
    destruct (clean self _) as [[[[]|e] w2]|] eqn:Hcl; [| |done];
      intros [= _ <-]; by rewrite (clean_locks _ _ _ _ Hcl).
  - intros [= _ <-]. apply Hrel.
Qed.

(** X15. What becomes of the value [v] the decorated function returned:
    the wrapper always returns; when the module is importable, the build
    type is Release and the function left no build folder (it removed it
    itself, say), [shutil.rmtree] raises, the caller gets
    [FileNotFoundError] in place of [v] and the disk is the one the
    function left; in every other case the caller gets [v]. *)
Theorem wrapper_filelock_value func self w w1 f (v : R) (d' : Disk) :
  acquire self w = Some (Ok f, w1) ->
  func self (w_disk w1) = Some (Ok v, d') ->
  let lost := dll_name self ∈ d_modules d' /\ w_build_type w = "Release" /\
              d_dirs d' !! build_folder self = None in
  exists r w',
    wrapper_filelock func self w = Some (r, w') /\
    (lost -> r = Raise (no_such_file (build_folder self)) /\ w_disk w' = d') /\
    (~ lost -> r = Ok v).
Proof.
  intros Hacq Hfunc lost.
  destruct (acquire_inv self w f w1 Hacq) as (_ & _ & _ & _ & Hbt & _).
  rewrite (wrapper_filelock_unfold func self w f w1 Hacq), Hfunc.
  set (w2 := released self f d' w1).
  assert (must_clean self w2 <->
          dll_name self ∈ d_modules d' /\ w_build_type w = "Release") as Hmc.
  { unfold must_clean, w2, released; cbn. by rewrite Hbt. }
  unfold bind, ret.
  destruct (decide (must_clean self w2)) as [Hc|Hc].
  - destruct (d_dirs (w_disk w2) !! build_folder self) as [es|] eqn:Edir.
    + destruct (clean_delete self w2 es Hc Edir) as (w3 & -> & _).
      eexists _, _. split; [done|]. split; [|done].
      intros (_ & _ & Habs). cbn in Edir. congruence.
    + destruct (clean_absent self w2 Hc Edir) as (w3 & -> & Hd & _).
      eexists _, _. split; [done|]. split; [by intros _|].
      intros Hn. destruct Hn. unfold lost. cbn in Edir. tauto.
  - rewrite (clean_skip self w2 Hc).
    eexists _, _. split; [done|]. split; [|done].
    intros (Hm & Hb & _). tauto.
Qed.

End WrapperOutcome.

Lemma wrapper_filelock_restores_locks_witness :
  exists w',
    wrapper_filelock compile_ok keops_target release_world = Some (Ok 42, w') /\
    w_locks w' = ∅.
Proof.
  assert (exists w', wrapper_filelock compile_ok keops_target release_world
                     = Some (Ok 42, w')) as [w' Hrun]
    by (eexists; vm_compute; reflexivity).
  exists w'. split; [exact Hrun|].
  rewrite (wrapper_filelock_restores_locks compile_ok keops_target
             release_world (Ok 42) w' Hrun).
  apply delete_empty.
Defined.

Lemma wrapper_filelock_value_witness :
  exists w',
    wrapper_filelock compile_and_tidy keops_target release_world
    = Some (Raise (no_such_file "build"), w') /\
    d_dirs (w_disk w') !! "build" = None.
Proof.
  destruct (acquire_free keops_target release_world) as [w1 Hacq];
    [vm_compute; reflexivity|].
  destruct (wrapper_filelock_value compile_and_tidy keops_target release_world
              w1 _ 7 _ Hacq eq_refl) as (r & w' & Hrun & Hlost & _).
  destruct Hlost as [-> Hd].
  { split_and!; [|reflexivity|].
    - cbn. apply elem_of_union_l, elem_of_singleton. reflexivity.
    - cbn. apply lookup_delete_eq. }
  exists w'. split; [exact Hrun|]. rewrite Hd. cbn. apply lookup_delete_eq.
Defined.

(** ** Mutual exclusion when nothing is cleaned *)

Section NoCleanup.
Context {R : Type}.
Implicit Types (func : Action R) (self : Target) (w : World) (f : file)
  (p : pc R) (c : Call R) (calls : list (Call R)).

Lemma pc_holds_file p f : pc_holds p = Some f -> pc_file p = Some f.
Proof. by destruct p. Qed.

(** One call moves: what is asked of the new world and the new position
    for the invariant to go on holding. *)
Lemma no_cleanup_inv_update w calls i c w' p' :
  no_cleanup_inv (w, calls) ->
  calls !! i = Some c ->
  w_build_type w' = w_build_type w ->
  (forall v, p' <> AtRmtree v) ->
  (w_next_fd w <= w_next_fd w')%nat ->
  (forall bf, is_Some (lock_file (w_disk w) bf) ->
     lock_file (w_disk w') bf = lock_file (w_disk w) bf) ->
  (forall j cj fj, j <> i -> calls !! j = Some cj ->
     pc_holds (c_pc cj) = Some fj ->
     w_locks w' !! f_ino fj = Some (f_fd fj)) ->
  (forall f, pc_file p' = Some f ->
     lock_file (w_disk w') (build_folder (c_self c)) = Some (f_ino f) /\
     (f_fd f < w_next_fd w')%nat /\
     (pc_file (c_pc c) = Some f \/ f_fd f = w_next_fd w)) ->
  (forall f, pc_holds p' = Some f -> w_locks w' !! f_ino f = Some (f_fd f)) ->
  no_cleanup_inv (w', <[i := mkCall (c_func c) (c_self c) p']> calls).
Proof.
  intros [Hbt Hfn Hrm Hfile Hheld Hdist] Hi Hbt' Hrm' Hfd Hlf Hothers Hnew Hnewheld.
  cbn [fst snd] in *.
  assert (Hlook : forall j cj, <[i := mkCall (c_func c) (c_self c) p']> calls !! j = Some cj ->
            (j = i /\ cj = mkCall (c_func c) (c_self c) p') \/
            (j <> i /\ calls !! j = Some cj)).
  { intros j cj Hj. destruct (decide (j = i)) as [->|Hne].
    - left. split; [done|].
      rewrite list_lookup_insert_eq in Hj by (by eapply lookup_lt_Some).
      congruence.
    - right. by rewrite list_lookup_insert_ne in Hj. }
  split; cbn [fst snd].
  - congruence.
  - intros j cj Hj. destruct (Hlook j cj Hj) as [[-> ->]|[Hne Hj']]; cbn; eauto.
  - intros j cj v Hj. destruct (Hlook j cj Hj) as [[-> ->]|[Hne Hj']]; cbn; eauto.
  - intros j cj f Hj Hf. destruct (Hlook j cj Hj) as [[-> ->]|[Hne Hj']]; cbn in *.
    + destruct (Hnew f Hf) as (? & ? & _). done.
    + destruct (Hfile j cj f Hj' Hf) as [Hl Hlt].
      rewrite Hlf by (rewrite Hl; eauto). split; [done|lia].
  - intros j cj f Hj Hf. destruct (Hlook j cj Hj) as [[-> ->]|[Hne Hj']]; cbn in *; eauto.
  - assert (Hfresh : forall j cj f fj, j <> i -> calls !! j = Some cj ->
        pc_file p' = Some f -> pc_file (c_pc cj) = Some fj -> f_fd f <> f_fd fj).
    { intros j cj f fj Hne Hj Hf Hfj.
      destruct (Hnew f Hf) as (_ & _ & [Hold|Hnext]).
      - by apply (Hdist i j c cj).
      - destruct (Hfile j cj fj Hj Hfj) as [_ Hlt]. lia. }
    intros j k cj ck fj fk Hjk Hj Hk Hfj Hfk.
    destruct (Hlook j cj Hj) as [[-> ->]|[Hnej Hj']];
      destruct (Hlook k ck Hk) as [[-> ->]|[Hnek Hk']]; cbn in *.
    + done.
    + by apply (Hfresh k ck).
    + intros Heq. by apply (Hfresh j cj fk fj).
    + by apply (Hdist j k cj ck).
Qed.

Lemma os_makedirs_effect (bf : string) w r w' :
  os_makedirs bf w = Some (r, w') ->
  r = Ok tt /\ w_locks w' = w_locks w /\ w_next_fd w' = w_next_fd w /\
  w_build_type w' = w_build_type w /\
  forall bf', lock_file (w_disk w') bf' = lock_file (w_disk w) bf'.
Proof.
  unfold os_makedirs. intros [= <- <-]. cbn. split_and!; try done.
  intros bf'. destruct (d_dirs (w_disk w) !! bf) eqn:E; [done|].
  unfold lock_file; cbn. destruct (decide (bf' = bf)) as [->|Hne].
  - by rewrite lookup_insert_eq, E, lookup_empty.
  - by rewrite lookup_insert_ne.
Qed.

Lemma open_w_effect (bf : string) w r w' :
  open_w (os_path_join bf lock_name) w = Some (r, w') ->
  w_locks w' = w_locks w /\ w_build_type w' = w_build_type w /\
  (w_next_fd w <= w_next_fd w')%nat /\
  (forall bf', is_Some (lock_file (w_disk w) bf') ->
     lock_file (w_disk w') bf' = lock_file (w_disk w) bf') /\
  forall f, r = Ok f ->
    f_fd f = w_next_fd w /\ w_next_fd w' = S (w_next_fd w) /\
    lock_file (w_disk w') bf = Some (f_ino f).
Proof.
  unfold open_w, os_path_join, lock_file. cbn [fst snd].
  destruct (d_dirs (w_disk w) !! bf) as [es|] eqn:Edir.
  - destruct (es !! lock_name) as [i|] eqn:Ei; intros [= <- <-]; cbn.
    + split_and!; try done; [lia|]. intros f [= <-]. cbn. by rewrite Edir, Ei.
    + split_and!; try done; [lia| |].
      * intros bf' Hsome. destruct (decide (bf' = bf)) as [->|Hne].
        -- rewrite Edir, Ei in Hsome. by destruct Hsome.
        -- by rewrite lookup_insert_ne.
      * intros f [= <-]. cbn. by rewrite !lookup_insert_eq.
  - intros [= <- <-]; cbn. split_and!; try done.
Qed.

Lemma flock_ex_effect f w r w' :
  flock f LOCK_EX w = Some (r, w') ->
  r = Ok tt /\ w_disk w' = w_disk w /\ w_next_fd w' = w_next_fd w /\
  w_build_type w' = w_build_type w /\
  w_locks w' = <[f_ino f := f_fd f]> (w_locks w) /\
  (w_locks w !! f_ino f = None \/ w_locks w !! f_ino f = Some (f_fd f)).
Proof.
  unfold flock. destruct (w_locks w !! f_ino f) as [h|] eqn:Eh.
  - case_decide as Hh; [|done]. subst h. intros [= <- <-]; cbn.
    split_and!; eauto. by rewrite insert_id.
  - intros [= <- <-]; cbn. split_and!; eauto.
Qed.

Lemma flock_un_effect f w r w' :
  flock f LOCK_UN w = Some (r, w') ->
  r = Ok tt /\ w_disk w' = w_disk w /\ w_next_fd w' = w_next_fd w /\
  w_build_type w' = w_build_type w /\ w_locks w' = drop_lock f (w_locks w).
Proof. unfold flock. intros [= <- <-]; by cbn. Qed.

Lemma file_close_effect f w r w' :
  file_close f w = Some (r, w') ->
  r = Ok tt /\ w_disk w' = w_disk w /\ w_next_fd w' = w_next_fd w /\
  w_build_type w' = w_build_type w /\ w_locks w' = drop_lock f (w_locks w).
Proof. unfold file_close. intros [= <- <-]; by cbn. Qed.

(** Dropping one's own lock leaves the lock of a description with another
    number in place. *)
Lemma drop_lock_other f fj (locks : gmap nat nat) :
  f_fd f <> f_fd fj ->
  locks !! f_ino fj = Some (f_fd fj) ->
  drop_lock f locks !! f_ino fj = Some (f_fd fj).
Proof.
  intros Hne Hj. unfold drop_lock. case_decide as Hown; [|done].
  rewrite lookup_delete_ne; [done|]. intros Heq. rewrite Heq in Hown. congruence.
Qed.

Lemma clean_test_effect self w r w' :
  and_ (module_exists (dll_name self))
       (let* build_type := get_build_type in
        ret (bool_decide (build_type = "Release"))) w = Some (r, w') ->
  w_disk w' = w_disk w /\ w_locks w' = w_locks w /\
  w_next_fd w' = w_next_fd w /\ w_build_type w' = w_build_type w /\
  exists b, r = Ok b /\ (b = true -> w_build_type w = "Release").
Proof.
  unfold and_, bind, module_exists, get_build_type, ret. cbn.
  destruct (bool_decide (dll_name self ∈ _)); cbn; intros [= <- <-]; cbn;
    (split_and!; try done); eexists; (split; [done|]).
  - by intros ?%bool_decide_eq_true.
  - done.
Qed.


Lemma no_cleanup_inv_sched (i : nat) (sys sys' : World * list (Call R)) :
  no_cleanup_inv sys -> sched i sys = Some sys' -> no_cleanup_inv sys'.
Proof.
  destruct sys as [w calls]. intros Hinv. unfold sched. cbn [fst snd].
  destruct (calls !! i) as [[func self p]|] eqn:Hi; [|done]. cbn [c_func c_self c_pc].
  destruct (step func self p w) as [[w' p']|] eqn:Hstep; [|done].
  intros [= <-].
  pose proof (inv_file _ Hinv i (mkCall func self p)) as Hfile_i.
  pose proof (inv_held _ Hinv i (mkCall func self p)) as Hheld_i.
  pose proof (inv_build_type _ Hinv) as Hbt.
  pose proof (inv_no_rmtree _ Hinv i (mkCall func self p)) as Hrm_i.
  pose proof (inv_funcs _ Hinv i _ Hi) as Hkeep.
  cbn [fst snd c_func c_self c_pc] in *.
  assert (Hfile_i' := fun f => Hfile_i f Hi). clear Hfile_i.
  assert (Hheld_i' := fun f => Hheld_i f Hi). clear Hheld_i.
  rename Hfile_i' into Hfile_i. rename Hheld_i' into Hheld_i.
  assert (Hothers : forall f j cj fj, pc_file p = Some f -> j <> i ->
            calls !! j = Some cj -> pc_holds (c_pc cj) = Some fj ->
            f_fd f <> f_fd fj /\ w_locks w !! f_ino fj = Some (f_fd fj)).
  { intros f j cj fj Hf Hne Hj Hfj. split.
    - apply (inv_distinct _ Hinv i j (mkCall func self p) cj);
        cbn; eauto using pc_holds_file.
    - by apply (inv_held _ Hinv j cj). }
  assert (Hkept : forall w1, w_locks w1 = w_locks w ->
            forall j cj fj, j <> i -> calls !! j = Some cj ->
              pc_holds (c_pc cj) = Some fj ->
              w_locks w1 !! f_ino fj = Some (f_fd fj)).
  { intros w1 Hl j cj fj _ Hj Hfj. rewrite Hl. by apply (inv_held _ Hinv j cj). }
  assert (Hdropped : forall f w1, pc_file p = Some f ->
            w_locks w1 = drop_lock f (w_locks w) ->
            forall j cj fj, j <> i -> calls !! j = Some cj ->
              pc_holds (c_pc cj) = Some fj ->
              w_locks w1 !! f_ino fj = Some (f_fd fj)).
  { intros f w1 Hf Hl j cj fj Hne Hj Hfj.
    destruct (Hothers f j cj fj Hf Hne Hj Hfj) as [Hdiff Hlock].
    rewrite Hl. by apply drop_lock_other. }
  destruct p as [| |f|f|f r|f r|v|v|r]; cbn [step] in Hstep.
  - (* os.makedirs *)
    unfold advance in Hstep.
    destruct (os_makedirs _ w) as [[r w1]|] eqn:Hmk; [|done].
    destruct (os_makedirs_effect _ _ _ _ Hmk) as (-> & Hl & Hfd & Hb & Hlf).
    injection Hstep as <- <-.
    apply (no_cleanup_inv_update w calls i _ w1 AtOpen Hinv Hi);
      cbn [c_pc c_self pc_file pc_holds]; [done|done|lia| |by apply Hkept|done..].
    intros bf _. apply Hlf.
  - (* open *)
    unfold advance in Hstep.
    destruct (open_w _ w) as [[r w1]|] eqn:Hop; [|done].
    destruct (open_w_effect _ _ _ _ Hop) as (Hl & Hb & Hfd & Hlf & Hnew).
    destruct r as [f|e]; injection Hstep as <- <-.
    + apply (no_cleanup_inv_update w calls i _ w1 (AtLock f) Hinv Hi);
        cbn [c_pc c_self pc_file pc_holds]; [done|done|lia|done|by apply Hkept| |done].
      intros f' [= <-]. destruct (Hnew f eq_refl) as (Hf1 & Hf2 & Hf3).
      split_and!; [done|lia|by right].
    + apply (no_cleanup_inv_update w calls i _ w1 (Finished (Raise e)) Hinv Hi);
        cbn [c_pc c_self pc_file pc_holds]; [done|done|lia|done|by apply Hkept|done..].
  - (* flock(LOCK_EX) *)
    unfold bind, FileLock_init, ret, cm_enter, FileLock_cm, FileLock_enter,
      bind, ret in Hstep. cbn [fd op] in Hstep.
    destruct (flock f LOCK_EX w) as [[r w1]|] eqn:Hfl; [|done].
    destruct (flock_ex_effect _ _ _ _ Hfl) as (-> & Hd & Hfd & Hb & Hl & Hfree).
    injection Hstep as <- <-.
    destruct (Hfile_i f eq_refl) as [Hlf Hlt].
    apply (no_cleanup_inv_update w calls i _ w1 (AtCall f) Hinv Hi);
      cbn [c_pc c_self pc_file pc_holds]; [done|done|lia|by rewrite Hd|..].
    + intros j cj fj Hne Hj Hfj.
      destruct (Hothers f j cj fj eq_refl Hne Hj Hfj) as [Hdiff Hlock].
      rewrite Hl. rewrite lookup_insert_ne; [done|].
      intros Heq. rewrite Heq in Hfree. destruct Hfree; congruence.
    + intros f' [= <-]. rewrite Hd, Hfd. eauto.
    + intros f' [= <-]. rewrite Hl. apply lookup_insert_eq.
  - (* the decorated function *)
    unfold call in Hstep.
    destruct (func self (w_disk w)) as [[r d']|] eqn:Hfunc; [|done].
    injection Hstep as <- <-.
    destruct (Hfile_i f eq_refl) as [Hlf Hlt].
    pose proof (Hkeep self _ _ _ Hfunc) as Hsame.
    apply (no_cleanup_inv_update w calls i _ _ (AtUnlock f r) Hinv Hi);
      cbn [c_pc c_self pc_file pc_holds]; [done|done|cbn; lia| |by apply Hkept|..].
    + intros bf _. apply Hsame.
    + intros f' [= <-]. cbn. rewrite Hsame. eauto.
    + intros f' [= <-]. by apply Hheld_i.
  - (* flock(LOCK_UN) *)
    unfold after_exit, cm_exit, FileLock_cm, FileLock_exit in Hstep.
    cbn [fd] in Hstep.
    destruct (flock f LOCK_UN w) as [[r' w1]|] eqn:Hfl; [|done].
    destruct (flock_un_effect _ _ _ _ Hfl) as (-> & Hd & Hfd & Hb & Hl).
    injection Hstep as <- <-.
    destruct (Hfile_i f eq_refl) as [Hlf Hlt].
    apply (no_cleanup_inv_update w calls i _ w1 (AtClose f r) Hinv Hi);
      cbn [c_pc c_self pc_file pc_holds];
      [done|done|lia|by rewrite Hd|by apply (Hdropped f)| |done].
    intros f' [= <-]. rewrite Hd, Hfd. eauto.
  - (* close *)
    unfold after_exit, cm_exit, file_cm in Hstep.
    destruct (file_close f w) as [[r' w1]|] eqn:Hcl; [|done].
    destruct (file_close_effect _ _ _ _ Hcl) as (-> & Hd & Hfd & Hb & Hl).
    destruct r as [v|e]; injection Hstep as <- <-.
    + apply (no_cleanup_inv_update w calls i _ w1 (AtClean v) Hinv Hi);
        cbn [c_pc c_self pc_file pc_holds];
        [done|done|lia|by rewrite Hd|by apply (Hdropped f)|done..].
    + apply (no_cleanup_inv_update w calls i _ w1 (Finished (Raise e)) Hinv Hi);
        cbn [c_pc c_self pc_file pc_holds];
        [done|done|lia|by rewrite Hd|by apply (Hdropped f)|done..].
  - (* the cleanup test *)
    unfold advance in Hstep.
    destruct (and_ _ _ w) as [[r w1]|] eqn:Htest; [|done].
    destruct (clean_test_effect _ _ _ _ Htest) as (Hd & Hl & Hfd & Hb & b & -> & Hrel).
    injection Hstep as <- <-.
    destruct b; [by destruct Hbt; apply Hrel|].
    apply (no_cleanup_inv_update w calls i _ w1 (Finished (Ok v)) Hinv Hi);
      cbn [c_pc c_self pc_file pc_holds];
      [done|done|lia|by rewrite Hd|by apply Hkept|done..].
  - by destruct (Hrm_i v Hi).
  - done.
Qed.

Lemma no_cleanup_inv_run (schedule : list nat) (sys sys' : World * list (Call R)) :
  no_cleanup_inv sys -> run schedule sys = Some sys' -> no_cleanup_inv sys'.
Proof.
  revert sys. induction schedule as [|i rest IH]; intros sys Hinv; cbn.
  - by intros [= <-].
  - destruct (sched i sys) as [sys1|] eqn:Hs; [|done].
    apply IH. by eapply no_cleanup_inv_sched.
Qed.

Lemma no_cleanup_inv_start w calls :
  w_build_type w <> "Release" ->
  Forall (fun c => c_pc c = AtMakedirs /\ keeps_lock_files (c_func c)) calls ->
  no_cleanup_inv (w, calls).
Proof.
  intros Hbt Hall. rewrite Forall_lookup in Hall.
  split; cbn [fst snd].
  - done.
  - intros i c Hi. by destruct (Hall i c Hi).
  - intros i c v Hi. destruct (Hall i c Hi) as [-> _]. done.
  - intros i c f Hi. destruct (Hall i c Hi) as [-> _]. done.
  - intros i c f Hi. destruct (Hall i c Hi) as [-> _]. done.
  - intros i j ci cj fi fj _ Hi. destruct (Hall i ci Hi) as [-> _]. done.
Qed.

Lemma no_cleanup_inv_exclusive (sys : World * list (Call R)) (i j : nat) :
  no_cleanup_inv sys -> ~ overlap i j sys.2.
Proof.
  intros Hinv. unfold overlap.
  destruct (sys.2 !! i) as [ci|] eqn:Hi; destruct (sys.2 !! j) as [cj|] eqn:Hj;
    [|by intros []..].
  intros (Hne & Hbf & Hci & Hcj).
  assert (exists fi, pc_holds (c_pc ci) = Some fi) as [fi Hfi].
  { unfold in_critical in Hci. destruct (c_pc ci); try done; by eexists. }
  assert (exists fj, pc_holds (c_pc cj) = Some fj) as [fj Hfj].
  { unfold in_critical in Hcj. destruct (c_pc cj); try done; by eexists. }
  destruct (inv_file _ Hinv i ci fi Hi (pc_holds_file _ _ Hfi)) as [Hli _].
  destruct (inv_file _ Hinv j cj fj Hj (pc_holds_file _ _ Hfj)) as [Hlj _].
  pose proof (inv_held _ Hinv i ci fi Hi Hfi) as Hhi.
  pose proof (inv_held _ Hinv j cj fj Hj Hfj) as Hhj.
  assert (f_fd fi = f_fd fj) as Hfd.
  { rewrite Hbf, Hlj in Hli. injection Hli as Hino. rewrite Hino in Hhj.
    congruence. }
  exact (inv_distinct _ Hinv i j ci cj fi fj Hne Hi Hj
           (pc_holds_file _ _ Hfi) (pc_holds_file _ _ Hfj) Hfd).
Qed.

(** X16. Mutual exclusion, as long as nothing deletes the lock file: when
    the build type is not Release and the decorated functions leave the
    lock files alone, no schedule brings two calls for the same build
    folder into the critical section together. *)
Lemma mutual_exclusion_without_cleanup w calls (schedule : list nat)
    (sys : World * list (Call R)) (i j : nat) :
  w_build_type w <> "Release" ->
  Forall (fun c => c_pc c = AtMakedirs /\ keeps_lock_files (c_func c)) calls ->
  run schedule (w, calls) = Some sys ->
  ~ overlap i j sys.2.
Proof.
  intros Hbt Hall Hrun. apply no_cleanup_inv_exclusive.
  eapply no_cleanup_inv_run; [|exact Hrun]. by apply no_cleanup_inv_start.
Qed.

End NoCleanup.

Lemma so_not_lock_name (dll : string) : dll +:+ ".so" <> lock_name.
Proof.
  unfold lock_name. intros H.
  repeat (destruct dll as [|? dll]; cbn in H; [discriminate H|];
          first [injection H as _ H | discriminate H]).
Qed.

Lemma compile_ok_keeps_lock_files : keeps_lock_files compile_ok.
Proof.
  intros self d r d' [= _ <-] bf. unfold lock_file; cbn.
  destruct (decide (bf = build_folder self)) as [->|Hne].
  - rewrite lookup_alter_eq. destruct (d_dirs d !! build_folder self); [|done].
    cbn. apply lookup_insert_ne, so_not_lock_name.
  - by rewrite lookup_alter_ne.
Qed.

(** In a Debug build no schedule of three compilations of the same
    module brings two of them into the critical section together. *)
Example debug_calls_exclusive (schedule : list nat)
    (sys : World * list (Call Z)) (i j : nat) :
  run schedule (debug_world, [start compile_ok keops_target;
                              start compile_ok keops_target;
                              start compile_ok keops_target]) = Some sys ->
  ~ overlap i j sys.2.
Proof.
  intros Hrun. apply no_cleanup_inv_exclusive.
  eapply no_cleanup_inv_run; [|exact Hrun].
  apply no_cleanup_inv_start; [done|].
  repeat constructor; apply compile_ok_keeps_lock_files.
Qed.

(** ** Calls of the wrapper do not deadlock *)

Section Progress.

Context {R : Type}.
Implicit Types (func : Action R) (self : Target) (w : World) (f : file)
  (p : pc R) (c : Call R) (calls : list (Call R)).

Lemma drop_lock_lookup f (locks : gmap nat nat) (ino hd : nat) :
  drop_lock f locks !! ino = Some hd ->
  locks !! ino = Some hd /\ mkFile hd ino <> f.
Proof.
  unfold drop_lock. destruct f as [ffd fino]; cbn. case_decide as Hown.
  - destruct (decide (ino = fino)) as [->|Hne].
    + by rewrite lookup_delete_eq.
    + rewrite lookup_delete_ne by done. intros H. split; [done|]. congruence.
  - intros H. split; [done|]. intros [= -> ->]. congruence.
Qed.

(** A lock that is in the table after a step was taken by this step, or
    was there before and is not the one the call held. *)
Lemma step_locks func self p w w' p' (ino hd : nat) :
  step func self p w = Some (w', p') ->
  w_locks w' !! ino = Some hd ->
  pc_holds p' = Some (mkFile hd ino) \/
  (w_locks w !! ino = Some hd /\ pc_holds p <> Some (mkFile hd ino)).
Proof.
  destruct p as [| |f|f|f r|f r|v|v|r]; cbn [step].
  - unfold advance.
    destruct (os_makedirs _ w) as [[r w0]|] eqn:E; [|intros Hn; discriminate Hn].
    destruct (os_makedirs_effect _ _ _ _ E) as (-> & Hl & _).
    intros [= <- <-]. rewrite Hl. by right.
  - unfold advance.
    destruct (open_w _ w) as [[r w0]|] eqn:E; [|intros Hn; discriminate Hn].
    destruct (open_w_effect _ _ _ _ E) as (Hl & _).
    destruct r; intros [= <- <-]; rewrite Hl; by right.
  - unfold bind, FileLock_init, ret, cm_enter, FileLock_cm, FileLock_enter,
      bind, ret.
    cbn [fd op].
    destruct (flock f LOCK_EX w) as [[r w0]|] eqn:E;
      [|intros Hn; discriminate Hn].
    destruct (flock_ex_effect _ _ _ _ E) as (-> & _ & _ & _ & Hl & _).
    cbn beta iota. intros [= <- <-]. rewrite Hl. destruct f as [ffd fino]; cbn.
    destruct (decide (ino = fino)) as [->|Hne].
    + rewrite lookup_insert_eq. intros [= ->]. by left.
    + rewrite lookup_insert_ne by done. by right.
  - unfold call. destruct (func self (w_disk w)) as [[r d']|]; [|intros Hn; discriminate Hn].
    intros [= <- <-]. cbn. intros Hl.
    destruct f as [ffd fino].
    destruct (decide (hd = ffd /\ ino = fino)) as [[-> ->]|Hne]; [by left|].
    right. split; [done|]. intros [= -> ->]. tauto.
  - unfold after_exit, cm_exit, FileLock_cm, FileLock_exit. cbn [fd].
    destruct (flock f LOCK_UN w) as [[r0 w0]|] eqn:E; [|intros Hn; discriminate Hn].
    destruct (flock_un_effect _ _ _ _ E) as (-> & _ & _ & _ & Hl).
    intros [= <- <-]. rewrite Hl. intros [Hold Hne]%drop_lock_lookup.
    right. split; [done|]. cbn. congruence.
  - unfold after_exit, cm_exit, file_cm.
    destruct (file_close f w) as [[r0 w0]|] eqn:E; [|intros Hn; discriminate Hn].
    destruct (file_close_effect _ _ _ _ E) as (-> & _ & _ & _ & Hl).
    intros [= <- <-]. rewrite Hl. intros [Hold Hne]%drop_lock_lookup.
    by right.
  - unfold advance.
    destruct (and_ _ _ w) as [[r w0]|] eqn:E; [|intros Hn; discriminate Hn].
    destruct (clean_test_effect _ _ _ _ E) as (_ & Hl & _ & _ & b & -> & _).
    intros [= <- <-]. rewrite Hl. by right.
  - unfold advance, shutil_rmtree.
    destruct (d_dirs (w_disk w) !! build_folder self);
      intros [= <- <-]; cbn; by right.
  - done.
Qed.

(** The three ways in which a call cannot make its next system call. *)
Lemma step_stuck func self p w :
  step func self p w = None ->
  (exists r, p = Finished r) \/
  (exists f, p = AtCall f /\ func self (w_disk w) = None) \/
  (exists f holder, p = AtLock f /\
     w_locks w !! f_ino f = Some holder /\ holder <> f_fd f).
Proof.
  destruct p as [| |f|f|f r|f r|v|v|r]; cbn [step].
  - unfold advance, os_makedirs. intros Hn; discriminate Hn.
  - unfold advance, open_w.
    destruct (d_dirs _ !! _) as [es|]; [destruct (es !! _)|];
      intros Hn; discriminate Hn.
  - unfold bind, FileLock_init, ret, cm_enter, FileLock_cm, FileLock_enter,
      bind, ret.
    cbn [fd op].
    destruct (flock_ex_spec f w) as [[_ (h & Hh & Hne)]|(w3 & -> & _)];
      [|intros Hn; discriminate Hn].
    intros _. right. right. eauto.
  - unfold call. destruct (func self (w_disk w)) as [[r d']|] eqn:E;
      [intros Hn; discriminate Hn|].
    intros _. right. left. eauto.
  - unfold after_exit, cm_exit, FileLock_cm, FileLock_exit, flock.
    intros Hn; discriminate Hn.
  - unfold after_exit, cm_exit, file_cm, file_close.
    intros Hn; discriminate Hn.
  - unfold advance, and_, bind, module_exists, get_build_type, ret. cbn.
    destruct (bool_decide _); intros Hn; discriminate Hn.
  - unfold advance, shutil_rmtree.
    destruct (d_dirs _ !! _); intros Hn; discriminate Hn.
  - intros _. left. eauto.
Qed.

Lemma locks_owned_sched (i : nat) (sys sys' : World * list (Call R)) :
  locks_owned sys -> sched i sys = Some sys' -> locks_owned sys'.
Proof.
  destruct sys as [w calls]. unfold sched; cbn [fst snd].
  intros Hinv. destruct (calls !! i) as [c|] eqn:Hi; [|done].
  destruct (step _ _ _ w) as [[w' p']|] eqn:Hstep; [|done].
  intros [= <-]. intros ino hd Hl. cbn [fst snd] in *.
  destruct (step_locks _ _ _ _ _ _ ino hd Hstep Hl) as [Hnew|[Hold Hne]].
  - exists i, (mkCall (c_func c) (c_self c) p'). split; [|done].
    apply list_lookup_insert_eq. by eapply lookup_lt_Some.
  - destruct (Hinv ino hd Hold) as (j & cj & Hj & Hholds).
    exists j, cj. split; [|done].
    rewrite list_lookup_insert_ne; [done|]. intros Heq.
    cbn [fst snd] in Hj. assert (cj = c) as -> by congruence. done.
Qed.

Lemma always_returns_sched (i : nat) (sys sys' : World * list (Call R)) :
  Forall (fun c => always_returns (c_func c)) sys.2 ->
  sched i sys = Some sys' ->
  Forall (fun c => always_returns (c_func c)) sys'.2.
Proof.
  destruct sys as [w calls]. unfold sched; cbn [fst snd].
  intros Hall. destruct (calls !! i) as [c|] eqn:Hi; [|done].
  destruct (step _ _ _ w) as [[w' p']|]; [|done].
  intros [= <-]. cbn [snd]. apply Forall_insert; [done|].
  cbn. by apply (Forall_lookup_1 _ _ _ _ Hall Hi).
Qed.

Lemma progress_inv_run (schedule : list nat) (sys sys' : World * list (Call R)) :
  locks_owned sys -> Forall (fun c => always_returns (c_func c)) sys.2 ->
  run schedule sys = Some sys' ->
  locks_owned sys' /\ Forall (fun c => always_returns (c_func c)) sys'.2.
Proof.
  revert sys. induction schedule as [|i rest IH]; intros sys Hl Hf; cbn.
  - by intros [= <-].
  - destruct (sched i sys) as [sys1|] eqn:Hs; [|done].
    apply IH; [by eapply locks_owned_sched|by eapply always_returns_sched].
Qed.

(** Some call can always move: in a system where every lock belongs to a
    call inside its critical section and the decorated functions end, a
    call that has not finished is either able to make its next system
    call, or waits for a lock whose holder is. *)
Lemma some_call_can_move (sys : World * list (Call R)) (i : nat) c :
  locks_owned sys -> Forall (fun c => always_returns (c_func c)) sys.2 ->
  sys.2 !! i = Some c -> finished c = false ->
  exists j sys', sched j sys = Some sys'.
Proof.
  intros Hl Hf Hi Hfin.
  destruct (step (c_func c) (c_self c) (c_pc c) sys.1) as [[w' p']|] eqn:Hstep.
  { exists i. unfold sched. rewrite Hi, Hstep. eauto. }
  destruct (step_stuck _ _ _ _ Hstep)
    as [[r Hr]|[(f & _ & Hn)|(f & h & _ & Hh & Hne)]].
  - unfold finished in Hfin. by rewrite Hr in Hfin.
  - by destruct (Forall_lookup_1 _ _ _ _ Hf Hi (c_self c) (w_disk sys.1)).
  - destruct (Hl _ _ Hh) as (j & cj & Hj & Hholds).
    exists j. unfold sched. rewrite Hj.
    destruct (step (c_func cj) (c_self cj) (c_pc cj) sys.1) as [[w' p']|] eqn:Hsj;
      [eauto|].
    destruct (step_stuck _ _ _ _ Hsj)
      as [[r Hr]|[(f' & _ & Hn)|(f' & h' & Hp & _)]].
    + by rewrite Hr in Hholds.
    + by destruct (Forall_lookup_1 _ _ _ _ Hf Hj (c_self cj) (w_disk sys.1)).
    + by rewrite Hp in Hholds.
Qed.

(** X17. Calls of the wrapper never deadlock: started in a world where
    nobody holds a lock, with decorated functions that end, then whatever
    the calls, their build folders, the build type and the schedule
    followed so far, as long as one call has not finished some call can
    make its next step. *)
Theorem wrapper_calls_never_deadlock w calls (schedule : list nat)
    (sys : World * list (Call R)) :
  w_locks w = ∅ ->
  Forall (fun c => always_returns (c_func c)) calls ->
  run schedule (w, calls) = Some sys ->
  (exists i c, sys.2 !! i = Some c /\ finished c = false) ->
  exists j sys', sched j sys = Some sys'.
Proof.
  intros Hempty Hall Hrun (i & c & Hi & Hfin).
  destruct (progress_inv_run schedule (w, calls) sys) as [Hl Hf]; try done.
  { intros ino hd. cbn. by rewrite Hempty, lookup_empty. }
  by eapply some_call_can_move.
Qed.

End Progress.

Lemma compile_ok_always_returns : always_returns compile_ok.
Proof. by intros self d. Qed.

Lemma wrapper_calls_never_deadlock_witness :
  after [0; 0; 0; 1; 1]%nat
        (release_world, [start compile_ok keops_target;
                         start compile_ok keops_target])
        (fun sys => exists j sys', sched j sys = Some sys').
Proof.
  assert (after [0; 0; 0; 1; 1]%nat
            (release_world, [start compile_ok keops_target;
                             start compile_ok keops_target])
            (fun sys => match sys.2 !! 1%nat with
                        | Some c => finished c = false
                        | None => False
                        end)) as Hrun by (vm_compute; reflexivity).
  unfold after in *.
  destruct (run _ _) as [sys|] eqn:E; [|destruct Hrun].
  apply (wrapper_calls_never_deadlock release_world
           [start compile_ok keops_target; start compile_ok keops_target]
           [0; 0; 0; 1; 1]%nat sys).
  - reflexivity.
  - repeat constructor; apply compile_ok_always_returns.
  - exact E.
  - exists 1%nat. destruct (sys.2 !! 1%nat) as [c|]; [eauto|destruct Hrun].
Defined.

Lemma mutual_exclusion_without_cleanup_witness :
  after [0; 0; 0; 1; 1]%nat
        (debug_world, [start compile_ok keops_target;
                       start compile_ok keops_target])
        (fun sys => ~ overlap 0 1 sys.2).
Proof.
  assert (after [0; 0; 0; 1; 1]%nat
            (debug_world, [start compile_ok keops_target;
                           start compile_ok keops_target])
            (fun _ => True)) as Hrun by (vm_compute; exact I).
  unfold after in *.
  destruct (run _ _) as [sys|] eqn:E; [|destruct Hrun].
  apply (mutual_exclusion_without_cleanup debug_world
           [start compile_ok keops_target; start compile_ok keops_target]
           [0; 0; 0; 1; 1]%nat sys 0 1).
  - done.
  - repeat constructor; apply compile_ok_keeps_lock_files.
  - exact E.
Defined.

(** ** The decorated function runs with the lock held *)

Section Holder.

Context {R : Type}.
Implicit Types (func : Action R) (self : Target) (w : World) (f : file)
  (p : pc R) (c : Call R) (calls : list (Call R)).

Lemma holder_inv_update w calls i c w' p' :
  holder_inv (w, calls) ->
  calls !! i = Some c ->
  (w_next_fd w <= w_next_fd w')%nat ->
  (forall j cj fj, j <> i -> calls !! j = Some cj ->
     pc_holds (c_pc cj) = Some fj ->
     w_locks w' !! f_ino fj = Some (f_fd fj)) ->
  (forall f, pc_file p' = Some f ->
     (f_fd f < w_next_fd w')%nat /\
     (pc_file (c_pc c) = Some f \/ f_fd f = w_next_fd w)) ->
  (forall f, pc_holds p' = Some f -> w_locks w' !! f_ino f = Some (f_fd f)) ->
  holder_inv (w', <[i := mkCall (c_func c) (c_self c) p']> calls).
Proof.
  intros [Hfd Hheld Hdist] Hi Hnext Hothers Hnew Hnewheld.
  cbn [fst snd] in *.
  assert (Hlook : forall j cj,
            <[i := mkCall (c_func c) (c_self c) p']> calls !! j = Some cj ->
            (j = i /\ cj = mkCall (c_func c) (c_self c) p') \/
            (j <> i /\ calls !! j = Some cj)).
  { intros j cj Hj. destruct (decide (j = i)) as [->|Hne].
    - left. split; [done|].
      rewrite list_lookup_insert_eq in Hj by (by eapply lookup_lt_Some).
      congruence.
    - right. by rewrite list_lookup_insert_ne in Hj. }
  split; cbn [fst snd].
  - intros j cj f Hj Hf. destruct (Hlook j cj Hj) as [[-> ->]|[Hne Hj']]; cbn in *.
    + by destruct (Hnew f Hf).
    + pose proof (Hfd j cj f Hj' Hf). lia.
  - intros j cj f Hj Hf.
    destruct (Hlook j cj Hj) as [[-> ->]|[Hne Hj']]; cbn in *; eauto.
  - assert (Hfresh : forall j cj f fj, j <> i -> calls !! j = Some cj ->
        pc_file p' = Some f -> pc_file (c_pc cj) = Some fj -> f_fd f <> f_fd fj).
    { intros j cj f fj Hne Hj Hf Hfj.
      destruct (Hnew f Hf) as (_ & [Hold|Hfresh]).
      - by apply (Hdist i j c cj).
      - pose proof (Hfd j cj fj Hj Hfj). lia. }
    intros j k cj ck fj fk Hjk Hj Hk Hfj Hfk.
    destruct (Hlook j cj Hj) as [[-> ->]|[Hnej Hj']];
      destruct (Hlook k ck Hk) as [[-> ->]|[Hnek Hk']]; cbn in *.
    + done.
    + by apply (Hfresh k ck).
    + intros Heq. by apply (Hfresh j cj fk fj).
    + by apply (Hdist j k cj ck).
Qed.

Lemma holder_inv_sched (i : nat) (sys sys' : World * list (Call R)) :
  holder_inv sys -> sched i sys = Some sys' -> holder_inv sys'.
Proof.
  destruct sys as [w calls]. intros Hinv. unfold sched. cbn [fst snd].
  destruct (calls !! i) as [[func self p]|] eqn:Hi; [|done].
  cbn [c_func c_self c_pc].
  destruct (step func self p w) as [[w' p']|] eqn:Hstep; [|done].
  intros [= <-].
  pose proof (hi_fd _ Hinv i (mkCall func self p)) as Hfd_i.
  pose proof (hi_held _ Hinv i (mkCall func self p)) as Hheld_i.
  cbn [fst snd c_func c_self c_pc] in *.
  assert (Hfd_i' := fun f => Hfd_i f Hi). clear Hfd_i.
  assert (Hheld_i' := fun f => Hheld_i f Hi). clear Hheld_i.
  rename Hfd_i' into Hfd_i. rename Hheld_i' into Hheld_i.
  assert (Hothers : forall f j cj fj, pc_file p = Some f -> j <> i ->
            calls !! j = Some cj -> pc_holds (c_pc cj) = Some fj ->
            f_fd f <> f_fd fj /\ w_locks w !! f_ino fj = Some (f_fd fj)).
  { intros f j cj fj Hf Hne Hj Hfj. split.
    - apply (hi_distinct _ Hinv i j (mkCall func self p) cj);
        cbn; eauto using pc_holds_file.
    - by apply (hi_held _ Hinv j cj). }
  assert (Hkept : forall w1, w_locks w1 = w_locks w ->
            forall j cj fj, j <> i -> calls !! j = Some cj ->
              pc_holds (c_pc cj) = Some fj ->
              w_locks w1 !! f_ino fj = Some (f_fd fj)).
  { intros w1 Hl j cj fj _ Hj Hfj. rewrite Hl. by apply (hi_held _ Hinv j cj). }
  assert (Hdropped : forall f w1, pc_file p = Some f ->
            w_locks w1 = drop_lock f (w_locks w) ->
            forall j cj fj, j <> i -> calls !! j = Some cj ->
              pc_holds (c_pc cj) = Some fj ->
              w_locks w1 !! f_ino fj = Some (f_fd fj)).
  { intros f w1 Hf Hl j cj fj Hne Hj Hfj.
    destruct (Hothers f j cj fj Hf Hne Hj Hfj) as [Hdiff Hlock].
    rewrite Hl. by apply drop_lock_other. }
  destruct p as [| |f|f|f r|f r|v|v|r]; cbn [step] in Hstep.
  - (* os.makedirs *)
    unfold advance in Hstep.
    destruct (os_makedirs _ w) as [[r w1]|] eqn:Hmk; [|done].
    destruct (os_makedirs_effect _ _ _ _ Hmk) as (-> & Hl & Hfd & _).
    injection Hstep as <- <-.
    apply (holder_inv_update w calls i _ w1 AtOpen Hinv Hi);
      cbn [c_pc c_self pc_file pc_holds]; [lia|by apply Hkept|done..].
  - (* open *)
    unfold advance in Hstep.
    destruct (open_w _ w) as [[r w1]|] eqn:Hop; [|done].
    destruct (open_w_effect _ _ _ _ Hop) as (Hl & _ & Hfd & _ & Hnew).
    destruct r as [f|e]; injection Hstep as <- <-.
    + apply (holder_inv_update w calls i _ w1 (AtLock f) Hinv Hi);
        cbn [c_pc c_self pc_file pc_holds]; [lia|by apply Hkept| |done].
      intros f' [= <-]. destruct (Hnew f eq_refl) as (Hf1 & Hf2 & _).
      split; [lia|by right].
    + apply (holder_inv_update w calls i _ w1 (Finished (Raise e)) Hinv Hi);
        cbn [c_pc c_self pc_file pc_holds]; [lia|by apply Hkept|done..].
  - (* flock(LOCK_EX) *)
    unfold bind, FileLock_init, ret, cm_enter, FileLock_cm, FileLock_enter,
      bind, ret in Hstep. cbn [fd op] in Hstep.
    destruct (flock f LOCK_EX w) as [[r w1]|] eqn:Hfl; [|done].
    destruct (flock_ex_effect _ _ _ _ Hfl) as (-> & _ & Hfd & _ & Hl & Hfree).
    injection Hstep as <- <-.
    pose proof (Hfd_i f eq_refl) as Hlt.
    apply (holder_inv_update w calls i _ w1 (AtCall f) Hinv Hi);
      cbn [c_pc c_self pc_file pc_holds]; [lia|..].
    + intros j cj fj Hne Hj Hfj.
      destruct (Hothers f j cj fj eq_refl Hne Hj Hfj) as [Hdiff Hlock].
      rewrite Hl. rewrite lookup_insert_ne; [done|].
      intros Heq. rewrite Heq in Hfree. destruct Hfree; congruence.
    + intros f' [= <-]. rewrite Hfd. eauto.
    + intros f' [= <-]. rewrite Hl. apply lookup_insert_eq.
  - (* the decorated function *)
    unfold call in Hstep.
    destruct (func self (w_disk w)) as [[r d']|] eqn:Hfunc; [|done].
    injection Hstep as <- <-.
    pose proof (Hfd_i f eq_refl) as Hlt.
    apply (holder_inv_update w calls i _ _ (AtUnlock f r) Hinv Hi);
      cbn [c_pc c_self pc_file pc_holds]; [cbn; lia|by apply Hkept|..].
    + intros f' [= <-]. cbn. eauto.
    + intros f' [= <-]. by apply Hheld_i.
  - (* flock(LOCK_UN) *)
    unfold after_exit, cm_exit, FileLock_cm, FileLock_exit in Hstep.
    cbn [fd] in Hstep.
    destruct (flock f LOCK_UN w) as [[r' w1]|] eqn:Hfl; [|done].
    destruct (flock_un_effect _ _ _ _ Hfl) as (-> & _ & Hfd & _ & Hl).
    injection Hstep as <- <-.
    pose proof (Hfd_i f eq_refl) as Hlt.
    apply (holder_inv_update w calls i _ w1 (AtClose f r) Hinv Hi);
      cbn [c_pc c_self pc_file pc_holds];
      [lia|by apply (Hdropped f)| |done].
    intros f' [= <-]. rewrite Hfd. eauto.
  - (* close *)
    unfold after_exit, cm_exit, file_cm in Hstep.
    destruct (file_close f w) as [[r' w1]|] eqn:Hcl; [|done].
    destruct (file_close_effect _ _ _ _ Hcl) as (-> & _ & Hfd & _ & Hl).
    destruct r as [v|e]; injection Hstep as <- <-.
    + apply (holder_inv_update w calls i _ w1 (AtClean v) Hinv Hi);
        cbn [c_pc c_self pc_file pc_holds];
        [lia|by apply (Hdropped f)|done..].
    + apply (holder_inv_update w calls i _ w1 (Finished (Raise e)) Hinv Hi);
        cbn [c_pc c_self pc_file pc_holds];
        [lia|by apply (Hdropped f)|done..].
  - (* the cleanup test *)
    unfold advance in Hstep.
    destruct (and_ _ _ w) as [[r w1]|] eqn:Htest; [|done].
    destruct (clean_test_effect _ _ _ _ Htest) as (_ & Hl & Hfd & _ & b & -> & _).
    injection Hstep as <- <-.
    apply (holder_inv_update w calls i _ w1 _ Hinv Hi);
      cbn [c_pc c_self pc_file pc_holds];
      [lia|by apply Hkept|by destruct b..].
  - (* shutil.rmtree *)
    unfold advance, shutil_rmtree in Hstep.
    destruct (d_dirs (w_disk w) !! build_folder self);
      injection Hstep as <- <-;
      apply (holder_inv_update w calls i _ _ _ Hinv Hi);
      cbn [c_pc c_self pc_file pc_holds]; try done; by apply Hkept.
  - done.
Qed.

Lemma holder_inv_run (schedule : list nat) (sys sys' : World * list (Call R)) :
  holder_inv sys -> run schedule sys = Some sys' -> holder_inv sys'.
Proof.
  revert sys. induction schedule as [|i rest IH]; intros sys Hinv; cbn.
  - by intros [= <-].
  - destruct (sched i sys) as [sys1|] eqn:Hs; [|done].
    apply IH. by eapply holder_inv_sched.
Qed.

Lemma holder_inv_start w calls :
  Forall (fun c => c_pc c = AtMakedirs) calls -> holder_inv (w, calls).
Proof.
  intros Hall. rewrite Forall_lookup in Hall. split; cbn [fst snd].
  - intros i c f Hi. by rewrite (Hall i c Hi).
  - intros i c f Hi. by rewrite (Hall i c Hi).
  - intros i j ci cj fi fj _ Hi. by rewrite (Hall i ci Hi).
Qed.

(** X18. The decorated function runs with the lock held, whatever the
    other calls do, cleanup included: in every system the scheduler
    reaches from calls that start, a call that is about to run its
    decorated function, or has just run it, holds the lock of the inode
    of the file it opened, and no other call that is at that point has a
    file on the same inode. *)
Theorem critical_section_holds_lock w calls (schedule : list nat)
    (sys : World * list (Call R)) (i : nat) c f :
  Forall (fun c => c_pc c = AtMakedirs) calls ->
  run schedule (w, calls) = Some sys ->
  sys.2 !! i = Some c -> pc_holds (c_pc c) = Some f ->
  w_locks sys.1 !! f_ino f = Some (f_fd f) /\
  forall j cj fj,
    j <> i -> sys.2 !! j = Some cj -> pc_holds (c_pc cj) = Some fj ->
    f_ino fj <> f_ino f.
Proof.
  intros Hall Hrun Hi Hf.
  assert (holder_inv sys) as Hinv.
  { eapply holder_inv_run; [|exact Hrun]. by apply holder_inv_start. }
  split; [by apply (hi_held _ Hinv i c)|].
  intros j cj fj Hne Hj Hfj Hino.
  pose proof (hi_held _ Hinv i c f Hi Hf) as Hli.
  pose proof (hi_held _ Hinv j cj fj Hj Hfj) as Hlj.
  rewrite Hino, Hli in Hlj.
  apply (hi_distinct _ Hinv i j c cj f fj); eauto using pc_holds_file.
  congruence.
Qed.

End Holder.

Lemma critical_section_holds_lock_witness :
  after [0; 0; 0; 1; 1]%nat
        (release_world, [start compile_ok keops_target;
                         start compile_ok keops_target])
        (fun sys => w_locks sys.1 !! 0%nat = Some 0%nat).
Proof.
  assert (after [0; 0; 0; 1; 1]%nat
            (release_world, [start compile_ok keops_target;
                             start compile_ok keops_target])
            (fun sys => c_pc <$> sys.2 = [AtCall (mkFile 0 0); AtLock (mkFile 1 0)]))
    as Hrun by (vm_compute; reflexivity).
  unfold after in *.
  destruct (run _ _) as [[w calls]|] eqn:E; [|destruct Hrun].
  cbn [fst snd] in *.
  destruct calls as [|c0 calls]; [discriminate Hrun|].
  injection Hrun as Hpc _.
  apply (critical_section_holds_lock release_world
           [start compile_ok keops_target; start compile_ok keops_target]
           [0; 0; 0; 1; 1]%nat (w, c0 :: calls) 0 c0 (mkFile 0 0)).
  - repeat constructor.
  - exact E.
  - reflexivity.
  - by rewrite Hpc.
Defined.
